(** * Merkle tree over a client list: leaf hashing, tree construction,
      inclusion proofs and their verification (main.ts).

    The TypeScript functions of main.ts are embedded as Rocq functions.
    A rejected promise or a thrown exception is the [Throw] outcome of
    [Result]; awaiting is sequencing in that monad.  The digest primitive
    and the JSON serializer come from the runtime, not from the repository:
    the functions are written over a [Runtime] interface, which is
    instantiated with SHA-256 and a JSON printer to evaluate them on concrete
    client lists. *)

From Stdlib Require Import List String Ascii ZArith Lia Bool Arith PeanoNat.
From Equations Require Import Equations.
Import ListNotations.

Set Warnings "-register-all".
Local Open Scope string_scope.
Local Open Scope list_scope.

(** ** Values of the JavaScript runtime *)

(** The values a client list can hold at run time, over the numbers [Num] of
    the runtime: no function of main.ts computes with a number.  The property
    list of an object is kept in the order in which the engine enumerates its
    own keys; functions, symbols and cyclic objects are not represented. *)
Inductive JsValue (Num : Type) : Type :=
| JUndefined
| JNull
| JBool (b : bool)
| JNumber (n : Num)
| JString (s : string)
| JArray (items : list (JsValue Num))
| JObject (props : list (string * JsValue Num)).
Arguments JUndefined {Num}.
Arguments JNull {Num}.
Arguments JBool {Num} b.
Arguments JNumber {Num} n.
Arguments JString {Num} s.
Arguments JArray {Num} items.
Arguments JObject {Num} props.

Inductive JsError : Type :=
| Error (message : string)
| TypeError.

Inductive Result (A : Type) : Type :=
| Ok (a : A)
| Throw (e : JsError).
Arguments Ok {A} a.
Arguments Throw {A} e.

Definition bind {A B : Type} (m : Result A) (k : A -> Result B) : Result B :=
  match m with
  | Ok a => k a
  | Throw e => Throw e
  end.

Notation "x <- m ;; k" := (bind m (fun x => k))
  (at level 61, m at next level, right associativity).
Notation "m ;;; k" := (bind m (fun _ => k))
  (at level 61, right associativity).

(** [typeof v]; note that [typeof null] is ["object"]. *)
Definition typeof {Num : Type} (v : JsValue Num) : string :=
  match v with
  | JUndefined => "undefined"
  | JNull => "object"
  | JBool _ => "boolean"
  | JNumber _ => "number"
  | JString _ => "string"
  | JArray _ => "object"
  | JObject _ => "object"
  end.

Definition Array_isArray {Num : Type} (v : JsValue Num) : bool :=
  match v with
  | JArray _ => true
  | _ => false
  end.

(** Decimal writing of a natural number, as in an array index key. *)
Fixpoint digits (fuel n : nat) (acc : string) : string :=
  match fuel with
  | O => acc
  | S fuel' =>
      let acc' := String (ascii_of_nat (48 + n mod 10)) acc in
      if (n / 10 =? 0)%nat then acc' else digits fuel' (n / 10) acc'
  end.

Definition decimal (n : nat) : string := digits (S n) n "".

(** [Object.keys v]: the own enumerable string keys; it throws a TypeError on
    [undefined] and [null]. *)
Definition Object_keys {Num : Type} (v : JsValue Num) : Result (list string) :=
  match v with
  | JUndefined | JNull => Throw TypeError
  | JBool _ | JNumber _ => Ok []
  | JString s => Ok (map decimal (seq 0 (String.length s)))
  | JArray items => Ok (map decimal (seq 0 (List.length items)))
  | JObject props => Ok (map fst props)
  end.

(** [new TextEncoder().encode(s)]: strings are kept as their UTF-8 bytes, and
    an [undefined] argument takes the default, the empty string. *)
Definition TextEncoder_encode (s : option string) : string :=
  match s with
  | Some s => s
  | None => ""
  end.

(** A value of type [string | undefined] converted by a template literal or a
    computed property key. *)
Definition ToString (s : option string) : string :=
  match s with
  | Some s => s
  | None => "undefined"
  end.

(** [Path], from the schemas: a sibling hash and the side it lies on. *)
Record Path : Type := { hash : string; isRight : bool }.

(** [ClientPath]: an object with the single property [ClientUID: proof]. *)
Definition ClientPath : Type := (string * list Path)%type.

(** [arr.indexOf(x)] on an array of strings, [-1] when absent; [undefined]
    is no element of such an array. *)
Fixpoint indexOf_from (arr : list string) (x : string) (i : Z) : Z :=
  match arr with
  | [] => (-1)%Z
  | y :: rest => if String.eqb y x then i else indexOf_from rest x (i + 1)%Z
  end.

Definition indexOf (arr : list string) (x : option string) : Z :=
  match x with
  | Some x => indexOf_from arr x 0%Z
  | None => (-1)%Z
  end.

(** ** The interface of the runtime *)

(** [JsNumber] is the type of numbers.  [DigestAlgorithm] is the set of names
    the digest primitive supports and [SHA_256] the default of every
    [algorithm] parameter.  [digestHex algorithm bytes] is
    [toHashString(await crypto.subtle.digest(algorithm, bytes))].
    [JSON_stringify] gives a string, [undefined], or throws a TypeError. *)
Class Runtime : Type := {
  JsNumber : Type;
  DigestAlgorithm : Type;
  SHA_256 : DigestAlgorithm;
  digestHex : DigestAlgorithm -> string -> string;
  JSON_stringify : JsValue JsNumber -> Result (option string)
}.

Abbreviation Value := (JsValue JsNumber).

(** ** The functions of main.ts *)

Section Main.

Context {rt : Runtime}.

(** The test of the format check, with the short-circuit of [||]. *)
Definition invalidFormat (client : Value) : Result bool :=
  if negb (typeof client =? "object") then Ok true
  else if Array_isArray client then Ok true
  else keys <- Object_keys client ;; Ok (negb (List.length keys =? 1)%nat).

(** [inputList.forEach(client => if (...) throw ...)]. *)
Fixpoint checkFormat (inputList : list Value) : Result unit :=
  match inputList with
  | [] => Ok tt
  | client :: rest =>
      bad <- invalidFormat client ;;
      if bad then Throw (Error "Invalid format for ClientList")
      else checkFormat rest
  end.

Definition hashItem (algorithm : DigestAlgorithm) (item : Value) : Result string :=
  json <- JSON_stringify item ;;
  Ok (digestHex algorithm (TextEncoder_encode json)).

(** [for await (const item of inputList) hashedList.push(...)]. *)
Fixpoint hashItems (algorithm : DigestAlgorithm) (inputList : list Value)
    (hashedList : list string) : Result (list string) :=
  match inputList with
  | [] => Ok hashedList
  | item :: rest =>
      h <- hashItem algorithm item ;;
      hashItems algorithm rest (hashedList ++ [h])
  end.

Definition hashList (inputList : list Value) (algorithm : DigestAlgorithm)
    : Result (list string) :=
  checkFormat inputList ;;;
  hashItems algorithm inputList [].

(** The inner loop of computeMerkleTree:
    [for (let i = 0; i < hashes.length; i += 2) nextLevel.push(...)]. *)
Equations? pairLoop (algorithm : DigestAlgorithm) (hashes : list string) (i : nat)
    (nextLevel : list string) : list string by wf (List.length hashes - i) lt :=
  pairLoop algorithm hashes i nextLevel with lt_dec i (List.length hashes) => {
    | left _ =>
        let leftHash := nth i hashes "" in
        let rightHash :=
          if (i + 1 <? List.length hashes)%nat then nth (i + 1) hashes "" else leftHash in
        pairLoop algorithm hashes (i + 2)
                 (nextLevel ++ [digestHex algorithm (leftHash ++ rightHash)]);
    | right _ => nextLevel }.
Proof. lia. Qed.

(** One turn of the outer loop: the pairs, then the duplicate of the last
    entry ("Ensure that every node has 2 children"). *)
Definition buildLevel (algorithm : DigestAlgorithm) (hashes : list string) : list string :=
  let nextLevel := pairLoop algorithm hashes 0 [] in
  if negb (List.length nextLevel mod 2 =? 0)%nat && (2 <? List.length hashes)%nat
  then nextLevel ++ [nth (List.length nextLevel - 1) nextLevel ""]
  else nextLevel.

Lemma pairLoop_length algorithm hashes i nextLevel :
  List.length (pairLoop algorithm hashes i nextLevel)
  = (List.length nextLevel + (List.length hashes - i + 1) / 2)%nat.
Proof.
  funelim (pairLoop algorithm hashes i nextLevel).
  - rewrite H. rewrite length_app. cbn [List.length].
    destruct (Nat.eq_dec (List.length hashes) (i + 1)) as [E | E].
    + rewrite E. replace (i + 1 - (i + 2) + 1)%nat with 1%nat by lia.
      replace (i + 1 - i + 1)%nat with 2%nat by lia. cbn. lia.
    + replace (List.length hashes - i + 1)%nat
        with (List.length hashes - (i + 2) + 1 + 1 * 2)%nat by lia.
      rewrite Nat.div_add by lia. lia.
  - replace (List.length hashes - i)%nat with 0%nat by lia. simpl. lia.
Qed.

Lemma buildLevel_shorter algorithm hashes :
  (1 < List.length hashes)%nat ->
  (List.length (buildLevel algorithm hashes) < List.length hashes)%nat.
Proof.
  intros Hlen. unfold buildLevel. cbv zeta.
  pose proof (pairLoop_length algorithm hashes 0 []) as Hp.
  cbn [List.length] in Hp. rewrite Nat.sub_0_r, Nat.add_0_l in Hp.
  set (p := pairLoop algorithm hashes 0 []) in *.
  assert (Hdiv : (2 * ((List.length hashes + 1) / 2) <= List.length hashes + 1)%nat)
    by (apply Nat.Div0.mul_div_le).
  destruct (negb (List.length p mod 2 =? 0)%nat && (2 <? List.length hashes)%nat) eqn:E.
  - apply andb_true_iff in E. destruct E as [Hodd Hgt].
    apply Nat.ltb_lt in Hgt. apply negb_true_iff in Hodd. apply Nat.eqb_neq in Hodd.
    rewrite length_app. cbn [List.length].
    pose proof (Nat.div_mod_eq (List.length p) 2) as Hm.
    pose proof (Nat.mod_upper_bound (List.length p) 2 ltac:(lia)) as Hu.
    lia.
  - lia.
Qed.

(** The outer loop: [while (hashes.length > 1) { ...; fullTree.push(hashes) }]. *)
Equations? growTree (algorithm : DigestAlgorithm) (hashes : list string)
    (fullTree : list (list string)) : list (list string) by wf (List.length hashes) lt :=
  growTree algorithm hashes fullTree with lt_dec 1 (List.length hashes) => {
    | left _ =>
        let nextLevel := buildLevel algorithm hashes in
        growTree algorithm nextLevel (fullTree ++ [nextLevel]);
    | right _ => fullTree }.
Proof. apply buildLevel_shorter; assumption. Qed.

(** The leaves are always hashed with the default algorithm: the call
    [hashList(inputList)] does not pass [algorithm] on. *)
Definition computeMerkleTree (inputList : list Value) (algorithm : DigestAlgorithm)
    : Result (list (list string)) :=
  if (List.length inputList =? 0)%nat then Throw (Error "Empty array of clients.")
  else
    hashes <- hashList inputList SHA_256 ;;
    if (List.length hashes =? 0)%nat then Throw (Error "Empty array of hashes.")
    else Ok (growTree algorithm hashes [hashes]).

(** The loop of generateMerkleProofWithOrder:
    [for (let i = 0; i < merkleTree.length - 1; i++) { ... }]. *)
Equations? proofLoop (merkleTree : list (list string)) (i : nat) (index : Z)
    (proof : list Path) : list Path by wf (List.length merkleTree - 1 - i) lt :=
  proofLoop merkleTree i index proof with lt_dec i (List.length merkleTree - 1) => {
    | left _ =>
        let isIndexEven := (Z.rem index 2 =? 0)%Z in
        let siblingIndex := if isIndexEven then (index + 1)%Z else (index - 1)%Z in
        let level := nth i merkleTree [] in
        let proof' :=
          if (0 <=? siblingIndex)%Z && (siblingIndex <? Z.of_nat (List.length level))%Z
          then proof ++ [{| hash := nth (Z.to_nat siblingIndex) level "";
                            isRight := isIndexEven |}]
          else proof in
        proofLoop merkleTree (i + 1) (index / 2)%Z proof';
    | right _ => proof }.
Proof. lia. Qed.

(** [merkleTree[0]]: reading a property of [undefined] throws. *)
Definition level0 (merkleTree : list (list string)) : Result (list string) :=
  match nth_error merkleTree 0 with
  | Some level => Ok level
  | None => Throw TypeError
  end.

(** The result is [None] for the source's [null]. *)
Definition generateMerkleProofWithOrder (leafHash : option string)
    (merkleTree : list (list string)) : Result (option (list Path)) :=
  leaves <- level0 merkleTree ;;
  let leafIndex := indexOf leaves leafHash in
  if (leafIndex =? -1)%Z then Ok None
  else Ok (Some (proofLoop merkleTree 0 leafIndex [])).

(** [for (const client of inputList) { ...; i++ }]; [merkleTree[0][i]] is
    [undefined] past the end of level 0. *)
Fixpoint everyUserLoop (inputList : list Value) (merkleTree : list (list string))
    (i : nat) (path : list ClientPath) : Result (list ClientPath) :=
  match inputList with
  | [] => Ok path
  | client :: rest =>
      clientID <- Object_keys client ;;
      leaves <- level0 merkleTree ;;
      proof <- generateMerkleProofWithOrder (nth_error leaves i) merkleTree ;;
      match proof with
      | None =>
          Throw (Error ("Proof not found for user " ++ ToString (nth_error clientID 0)))
      | Some proof =>
          everyUserLoop rest merkleTree (i + 1)
                        (path ++ [(ToString (nth_error clientID 0), proof)])
      end
  end.

Definition generateProofForEveryUser (inputList : list Value)
    (merkleTree : list (list string)) : Result (list ClientPath) :=
  everyUserLoop inputList merkleTree 0 [].

(** The body of the loop of verifyMerkleProofWithOrder. *)
Definition combine (algorithm : DigestAlgorithm) (computedHash : string)
    (proofHash : Path) : string :=
  let stringToHash :=
    (if isRight proofHash then computedHash ++ hash proofHash
     else hash proofHash ++ computedHash)%string in
  digestHex algorithm stringToHash.

Definition verifyMerkleProofWithOrder (leafRawData : Value) (merkleRoot : string)
    (proof : list Path) (algorithm : DigestAlgorithm) : Result bool :=
  json <- JSON_stringify leafRawData ;;
  let leafHash := digestHex algorithm (TextEncoder_encode json) in
  let computedHash := fold_left (combine algorithm) proof leafHash in
  Ok (computedHash =? merkleRoot).

End Main.

(** ** Specification-level notions *)

Section Specification.

Context {rt : Runtime}.

(** A Client Entry: an object with exactly one key. *)
Definition isClientEntry (client : Value) : bool :=
  match client with
  | JObject [_] => true
  | _ => false
  end.

Definition serializable (client : Value) : Prop :=
  exists json, JSON_stringify client = Ok json.

Definition FormatError : JsError := Error "Invalid format for ClientList".
Definition EmptyInputError : JsError := Error "Empty array of clients.".
Definition ProofNotFoundError (clientId : string) : JsError :=
  Error ("Proof not found for user " ++ clientId).

(** The levels above [hashes], as the outer loop pushes them. *)
Definition levelsAbove (algorithm : DigestAlgorithm) (hashes : list string)
    : list (list string) :=
  growTree algorithm hashes [].

(** The pairing of one level, by recursion on the level. *)
Fixpoint pairUp (algorithm : DigestAlgorithm) (level : list string) : list string :=
  match level with
  | [] => []
  | [a] => [digestHex algorithm (a ++ a)]
  | a :: b :: rest => digestHex algorithm (a ++ b) :: pairUp algorithm rest
  end.

(** The level construction rule in the words of the specification: entry [i]
    of the new level hashes the entries [2i] and [2i+1] of the old one, the
    entry [2i] standing in for a missing right partner. *)
Definition pairAt (algorithm : DigestAlgorithm) (level : list string) (i : nat) : string :=
  let leftHash := nth (2 * i) level "" in
  let rightHash :=
    if (2 * i + 1 <? List.length level)%nat then nth (2 * i + 1) level "" else leftHash in
  digestHex algorithm (leftHash ++ rightHash).

Definition pairedLevel (algorithm : DigestAlgorithm) (level : list string) : list string :=
  map (pairAt algorithm level) (seq 0 (Nat.div2 (S (List.length level)))).

(** The secondary padding rule in the words of the specification. *)
Definition nextLevelSpec (algorithm : DigestAlgorithm) (level : list string) : list string :=
  let paired := pairedLevel algorithm level in
  if Nat.odd (List.length paired) && (2 <? List.length level)%nat
  then paired ++ [last paired ""]
  else paired.

(** The fold of the verifier in the words of the specification. *)
Fixpoint foldProof (algorithm : DigestAlgorithm) (computedHash : string)
    (proof : list Path) : string :=
  match proof with
  | [] => computedHash
  | entry :: rest =>
      let concatenation :=
        match isRight entry with
        | true => (computedHash ++ hash entry)%string
        | false => (hash entry ++ computedHash)%string
        end in
      foldProof algorithm (digestHex algorithm concatenation) rest
  end.

(** The entries the proof loop collects from the levels [levels], by
    recursion on the levels; the last level contributes nothing. *)
Fixpoint climb (levels : list (list string)) (index : nat) : list Path :=
  match levels with
  | level :: (_ :: _) as upper =>
      let sibling := if Nat.even index then S index else pred index in
      (if (sibling <? List.length level)%nat
       then [{| hash := nth sibling level ""; isRight := Nat.even index |}]
       else [])
      ++ climb upper (Nat.div2 index)
  | _ => []
  end.

(** A Client List whose entries are well formed and serializable. *)
Definition wellFormed (inputList : list Value) : Prop :=
  Forall (fun client => isClientEntry client = true) inputList /\
  Forall serializable inputList.

End Specification.

(** ** The default digest: SHA-256 (FIPS 180-4), written in lower-case hex *)

Module Sha256.
Local Open Scope Z_scope.

Definition w32 (x : Z) : Z := Z.land x 0xffffffff.
Definition add32 (x y : Z) : Z := w32 (x + y).
Definition rotr (n x : Z) : Z := Z.lor (Z.shiftr x n) (w32 (Z.shiftl x (32 - n))).
Definition Ch (x y z : Z) : Z :=
  Z.lxor (Z.land x y) (Z.land (Z.lxor x 0xffffffff) z).
Definition Maj (x y z : Z) : Z :=
  Z.lxor (Z.lxor (Z.land x y) (Z.land x z)) (Z.land y z).
Definition Sigma0 (x : Z) : Z := Z.lxor (Z.lxor (rotr 2 x) (rotr 13 x)) (rotr 22 x).
Definition Sigma1 (x : Z) : Z := Z.lxor (Z.lxor (rotr 6 x) (rotr 11 x)) (rotr 25 x).
Definition sigma0 (x : Z) : Z := Z.lxor (Z.lxor (rotr 7 x) (rotr 18 x)) (Z.shiftr x 3).
Definition sigma1 (x : Z) : Z := Z.lxor (Z.lxor (rotr 17 x) (rotr 19 x)) (Z.shiftr x 10).

(** The constants are not tabulated: FIPS 180-4 defines them as the first 32
    bits of the fractional parts of the cube roots (round constants) and of
    the square roots (initial hash value) of the first primes. *)
Definition is_prime (n : nat) : bool :=
  forallb (fun d => negb (n mod d =? 0)%nat) (seq 2 (n - 2)).

Definition primes : list Z :=
  map Z.of_nat (filter is_prime (seq 2 310)).

(** The integer cube root below [2 ^ bits], one binary digit at a time. *)
Fixpoint cube_root (bits : nat) (n r : Z) : Z :=
  match bits with
  | O => r
  | S bits' =>
      let r' := r + 2 ^ Z.of_nat bits' in
      cube_root bits' n (if r' * r' * r' <=? n then r' else r)
  end.

Definition K : list Z :=
  Eval vm_compute in map (fun p => w32 (cube_root 36 (p * 2 ^ 96) 0)) primes.

Definition H0 : list Z :=
  Eval vm_compute in map (fun p => w32 (Z.sqrt (p * 2 ^ 64))) (firstn 8 primes).

(** The message, the byte 0x80, zero bytes up to 56 modulo 64, and the
    length in bits on eight bytes. *)
Definition pad (msg : list Z) : list Z :=
  let n := Z.of_nat (List.length msg) in
  let bits := 8 * n in
  msg ++ [0x80] ++ repeat 0 (Z.to_nat ((55 - n) mod 64))
      ++ map (fun i => Z.land (Z.shiftr bits (8 * (7 - Z.of_nat i))) 0xff) (seq 0 8).

Fixpoint words (bytes : list Z) : list Z :=
  match bytes with
  | a :: b :: c :: d :: rest =>
      (Z.shiftl a 24 + Z.shiftl b 16 + Z.shiftl c 8 + d) :: words rest
  | _ => []
  end.

Fixpoint blocks (n : nat) (ws : list Z) : list (list Z) :=
  match n with
  | O => []
  | S n' =>
      match ws with
      | [] => []
      | _ => firstn 16 ws :: blocks n' (skipn 16 ws)
      end
  end.

(** The message schedule, newest word first. *)
Fixpoint schedule (n : nat) (rev_w : list Z) : list Z :=
  match n with
  | O => rev_w
  | S n' =>
      let w := add32 (add32 (sigma1 (nth 1 rev_w 0)) (nth 6 rev_w 0))
                     (add32 (sigma0 (nth 14 rev_w 0)) (nth 15 rev_w 0)) in
      schedule n' (w :: rev_w)
  end.

Definition round (st : list Z) (kw : Z * Z) : list Z :=
  match st with
  | [a; b; c; d; e; f; g; h] =>
      let t1 := add32 (add32 (add32 h (Sigma1 e)) (add32 (Ch e f g) (fst kw))) (snd kw) in
      let t2 := add32 (Sigma0 a) (Maj a b c) in
      [add32 t1 t2; a; b; c; add32 d t1; e; f; g]
  | _ => st
  end.

Definition compress (st : list Z) (block : list Z) : list Z :=
  let w := rev (schedule 48 (rev block)) in
  let st' := fold_left round (List.combine K w) st in
  map (fun p => add32 (fst p) (snd p)) (List.combine st st').

Definition bytes_of_string (s : string) : list Z :=
  map (fun c => Z.of_nat (nat_of_ascii c)) (list_ascii_of_string s).

Definition word_bytes (w : Z) : list Z :=
  [Z.shiftr w 24; Z.land (Z.shiftr w 16) 0xff; Z.land (Z.shiftr w 8) 0xff; Z.land w 0xff].

Definition digest (msg : list Z) : list Z :=
  let ws := words (pad msg) in
  flat_map word_bytes (fold_left compress (blocks (List.length ws) ws) H0).

Definition hex_digit (n : Z) : ascii :=
  nth (Z.to_nat n) (list_ascii_of_string "0123456789abcdef") "0"%char.

(** [toHashString]: two lower-case hex digits per byte. *)
Definition toHashString (bytes : list Z) : string :=
  string_of_list_ascii
    (flat_map (fun b => [hex_digit (Z.shiftr b 4); hex_digit (Z.land b 15)]) bytes).

Definition sha256 (s : string) : string := toHashString (digest (bytes_of_string s)).

End Sha256.


(** ** [JSON.stringify] on the values whose numbers are integers *)

Module Json.

Definition quote_mark : string := String "034"%char EmptyString.
Definition backslash : string := String "092"%char EmptyString.

Definition hex_digit (n : nat) : ascii :=
  nth n (list_ascii_of_string "0123456789abcdef") "0"%char.

(** One byte of a string inside the quotes. *)
Definition escape (c : ascii) : string :=
  let n := nat_of_ascii c in
  if (n =? 34)%nat then backslash ++ quote_mark
  else if (n =? 92)%nat then backslash ++ backslash
  else if (n =? 8)%nat then backslash ++ "b"
  else if (n =? 9)%nat then backslash ++ "t"
  else if (n =? 10)%nat then backslash ++ "n"
  else if (n =? 12)%nat then backslash ++ "f"
  else if (n =? 13)%nat then backslash ++ "r"
  else if (n <? 32)%nat
       then backslash ++ "u00" ++ String (hex_digit (n / 16)) (String (hex_digit (n mod 16)) "")
  else String c "".

Definition quote (s : string) : string :=
  quote_mark ++ String.concat "" (map escape (list_ascii_of_string s)) ++ quote_mark.

Definition number (n : Z) : string :=
  match n with
  | Z0 => "0"
  | Zpos p => decimal (Pos.to_nat p)
  | Zneg p => "-" ++ decimal (Pos.to_nat p)
  end.

(** [undefined] is [None]; inside an array it is written [null], and a
    property holding it is left out. *)
Fixpoint stringify (v : JsValue Z) : option string :=
  match v with
  | JUndefined => None
  | JNull => Some "null"
  | JBool b => Some (if b then "true" else "false")
  | JNumber n => Some (number n)
  | JString s => Some (quote s)
  | JArray items =>
      Some ("[" ++ String.concat ","
              (map (fun item => match stringify item with
                                | Some t => t
                                | None => "null"
                                end) items) ++ "]")
  | JObject props =>
      Some ("{" ++ String.concat ","
              (flat_map (fun kv => match stringify (snd kv) with
                                   | Some t => [quote (fst kv) ++ ":" ++ t]
                                   | None => []
                                   end) props) ++ "}")
  end%string.

End Json.


(** ** The runtime's defaults *)

Module Deno.

(** Only the default algorithm is instantiated. *)
Inductive Algorithm : Type := SHA256.

#[global] Instance runtime : Runtime := {|
  JsNumber := Z;
  DigestAlgorithm := Algorithm;
  SHA_256 := SHA256;
  digestHex := fun algorithm bytes =>
                 match algorithm with
                 | SHA256 => Sha256.sha256 bytes
                 end;
  JSON_stringify := fun v => Ok (Json.stringify v)
|}.

(** A client entry [{id: [[token, amount], ...]}]. *)
Definition client (id : string) (balances : list (string * Z)) : JsValue Z :=
  JObject [(id, JArray (map (fun b => JArray [JString (fst b); JNumber (snd b)]) balances))].

Definition client1 : JsValue Z := client "Client 1" [("Token 1", 10%Z)].
Definition client2 : JsValue Z := client "Client 2" [("Token 1", 20%Z); ("Token 2", 5%Z)].
Definition client3 : JsValue Z := client "Client 3" [("Token 1", 30%Z)].
Definition client4 : JsValue Z := client "Client 4" [].
Definition client5 : JsValue Z := client "Client 5" [("Token 3", 7%Z)].

Definition threeClients : list (JsValue Z) := [client1; client2; client3].
Definition fiveClients : list (JsValue Z) := [client1; client2; client3; client4; client5].

Definition treeOf (inputList : list (JsValue Z)) : list (list string) :=
  match computeMerkleTree inputList SHA_256 with
  | Ok tree => tree
  | Throw _ => []
  end.

Definition threeTree : list (list string) := Eval vm_compute in treeOf threeClients.
Definition fiveTree : list (list string) := Eval vm_compute in treeOf fiveClients.

End Deno.

(** ** The test-data generator (helpers/create_clients.ts) and [main] *)

(** The random source of the runtime.  A draw of [Math.random] is kept
    abstract, with the two computations the code makes on it:
    [floorOfProduct r n] is [Math.floor(r * n)] for an integer [n], and
    [tokensOf r] is [(r * (1e9 - 1e-9)) + 1e-9]. *)
Class Random {rt : Runtime} : Type := {
  RandomState : Type;
  RandomNumber : Type;
  Math_random : RandomState -> RandomNumber * RandomState;
  floorOfProduct : RandomNumber -> Z -> Z;
  tokensOf : RandomNumber -> JsNumber
}.

(** What [console.log] is given: the arguments of one call make one line. *)
Inductive ConsoleArg (Num : Type) : Type :=
| LogString (s : string)
| LogUndefined
| LogNumber (n : Z)
| LogBoolean (b : bool)
| LogValue (v : JsValue Num)
| LogProof (proof : list Path).
Arguments LogString {Num} s.
Arguments LogUndefined {Num}.
Arguments LogNumber {Num} n.
Arguments LogBoolean {Num} b.
Arguments LogValue {Num} v.
Arguments LogProof {Num} proof.

(** An integer in a template literal. *)
Definition Number_toString (n : Z) : string :=
  match n with
  | Z0 => "0"
  | Zpos p => decimal (Pos.to_nat p)
  | Zneg p => "-" ++ decimal (Pos.to_nat p)
  end.

(** [arr[k]] for an integer [k]: [undefined] outside the array. *)
Definition elementAt {Num : Type} (arr : list (JsValue Num)) (k : Z) : JsValue Num :=
  if (k <? 0)%Z then JUndefined
  else match nth_error arr (Z.to_nat k) with
       | Some v => v
       | None => JUndefined
       end.

(** [obj[key]] on an object, by its own properties; the list [main] reads
    from holds objects only. *)
Definition Get {Num : Type} (obj : JsValue Num) (key : string) : option (JsValue Num) :=
  match obj with
  | JObject props => option_map snd (find (fun kv => fst kv =? key) props)
  | _ => None
  end.

Section EntryPoint.

Context {rt : Runtime} {rnd : Random}.

(** The inner loop of generateClientList:
    [for (let j = 0; j < numAccounts; j++) accounts.push([accountId, accountTokens])]. *)
Equations? accountsLoop (numAccounts : Z) (j : nat) (accounts : list Value)
    (seed : RandomState) : list Value * RandomState
    by wf (Z.to_nat (numAccounts - Z.of_nat j)) lt :=
  accountsLoop numAccounts j accounts seed with Z_lt_dec (Z.of_nat j) numAccounts => {
    | left _ =>
        let accountId := ("Token " ++ decimal (j + 1))%string in
        let draw := Math_random seed in
        let accountTokens := tokensOf (fst draw) in
        accountsLoop numAccounts (j + 1)
                     (accounts ++ [JArray [JString accountId; JNumber accountTokens]])
                     (snd draw);
    | right _ => (accounts, seed) }.
Proof. lia. Qed.

(** The outer loop: [for (let i = 0; i < length; i++) clientList.push(clientData)]. *)
Equations? clientsLoop (length : Z) (i : nat) (clientList : list Value)
    (seed : RandomState) : list Value * RandomState
    by wf (Z.to_nat (length - Z.of_nat i)) lt :=
  clientsLoop length i clientList seed with Z_lt_dec (Z.of_nat i) length => {
    | left _ =>
        let clientId := ("Client " ++ decimal (i + 1))%string in
        let draw := Math_random seed in
        let numAccounts := (floorOfProduct (fst draw) 10 + 1)%Z in
        let filled := accountsLoop numAccounts 0 [] (snd draw) in
        let clientData := JObject [(clientId, JArray (fst filled))] in
        clientsLoop length (i + 1) (clientList ++ [clientData]) (snd filled);
    | right _ => (clientList, seed) }.
Proof. lia. Qed.

(** The list, and the state the random source is left in. *)
Definition generateClientList (length : Z) (seed : RandomState)
    : list Value * RandomState :=
  clientsLoop length 0 [] seed.

(** [tree[tree.length - 1]], then [[0]] of it. *)
Definition lastLevel (tree : list (list string)) : Result (list string) :=
  match nth_error tree (List.length tree - 1) with
  | Some level => Ok level
  | None => Throw TypeError
  end.

(** The lines [main] logs once the verification has returned. *)
Definition report (number_of_test_users : Z) (verbose : bool) (depth : nat)
    (root randomUserID : option string) (account : option Value)
    (paths : nat) (proof : list Path) (verifyWithOrder : bool)
    : list (list (ConsoleArg JsNumber)) :=
  let text (s : option string) : ConsoleArg JsNumber :=
    match s with
    | Some s => LogString s
    | None => LogUndefined
    end in
  [[LogString " "]]
  ++ (if verbose then
        [[LogString ("Random generated amount of users ("
                       ++ Number_toString number_of_test_users
                       ++ "), tokens (1-10) and balances (1e-17 - 1e9)")];
         [LogString " "];
         [LogString "Generated Merkle tree, depth"; LogNumber (Z.of_nat depth);
          LogString ", root value"; text root];
         [LogString " "];
         [LogString "Random user account:"; text randomUserID];
         [match account with
          | Some v => LogValue v
          | None => LogUndefined
          end];
         [LogString " "];
         [LogString "Proof path generated for"; LogNumber (Z.of_nat paths);
          LogString "users"];
         [LogString " "];
         [LogString "Random user"; text randomUserID; LogString "proof path:"];
         [LogProof proof];
         [LogString ""];
         [LogString "Was the user include in the tree: "; LogBoolean verifyWithOrder]]
      else [])
  ++ [[LogString ""]].

(** [main]: the result is what it logs; nothing is logged before the last
    call that can throw, nor when no path is found for the drawn user. *)
Definition main (number_of_test_users : Z) (verbose : bool) (seed : RandomState)
    : Result (list (list (ConsoleArg JsNumber))) :=
  let generated := generateClientList number_of_test_users seed in
  let randomUserList := fst generated in
  let randomUser :=
    floorOfProduct (fst (Math_random (snd generated))) number_of_test_users in
  keys <- Object_keys (elementAt randomUserList randomUser) ;;
  let randomUserID := nth_error keys 0 in
  tree <- computeMerkleTree randomUserList SHA_256 ;;
  let depth := List.length tree in
  top <- lastLevel tree ;;
  let root := nth_error top 0 in
  allPaths <- generateProofForEveryUser randomUserList tree ;;
  match find (fun users => fst users =? ToString randomUserID) allPaths with
  | Some randomUserPathProof =>
      verifyWithOrder <-
        match root with
        | Some root =>
            verifyMerkleProofWithOrder (elementAt randomUserList randomUser) root
                                       (snd randomUserPathProof) SHA_256
        | None =>
            (* a computed hash is never [undefined] *)
            verifyMerkleProofWithOrder (elementAt randomUserList randomUser) ""
                                       (snd randomUserPathProof) SHA_256 ;;;
            Ok false
        end ;;
      Ok (report number_of_test_users verbose depth root randomUserID
                 (Get (elementAt randomUserList randomUser) (ToString randomUserID))
                 (List.length allPaths) (snd randomUserPathProof) verifyWithOrder)
  | None => Ok []
  end.

End EntryPoint.

(** The number a decimal writing stands for, read from the left. *)
Fixpoint digitsValue (s : string) (v : nat) : nat :=
  match s with
  | EmptyString => v
  | String c rest => digitsValue rest (10 * v + (nat_of_ascii c - 48))
  end.

Section GeneratedEntries.

Context {rt : Runtime}.

(** An entry as generateClientList builds it at index [i]. *)
Definition generatedEntry (i : nat) (client : Value) : Prop :=
  exists accounts,
    client = JObject [(("Client " ++ decimal (i + 1))%string, JArray accounts)] /\
    forall j account,
      nth_error accounts j = Some account ->
      exists amount,
        account = JArray [JString ("Token " ++ decimal (j + 1)); JNumber amount].

End GeneratedEntries.

(** ** A runtime with bigint amounts, and a scripted random source *)

Module WithBigInt.

(** A number of the runtime: a double with an integer value, or a bigint.
    [typeof] tells the two apart, but the format check only asks whether it
    is ["object"], which it is for neither. *)
Inductive Numeric : Type :=
| Double (n : Z)
| BigInt (n : Z).

Fixpoint hasBigInt (v : JsValue Numeric) : bool :=
  match v with
  | JNumber (BigInt _) => true
  | JArray items => existsb hasBigInt items
  | JObject props => existsb (fun kv => hasBigInt (snd kv)) props
  | _ => false
  end.

Fixpoint doubles (v : JsValue Numeric) : JsValue Z :=
  match v with
  | JUndefined => JUndefined
  | JNull => JNull
  | JBool b => JBool b
  | JNumber (Double n) => JNumber n
  | JNumber (BigInt n) => JNumber n
  | JString s => JString s
  | JArray items => JArray (map doubles items)
  | JObject props => JObject (map (fun kv => (fst kv, doubles (snd kv))) props)
  end.

(** [JSON.stringify] throws a TypeError on a value that holds a bigint. *)
Definition runtime : Runtime := {|
  JsNumber := Numeric;
  DigestAlgorithm := Deno.Algorithm;
  SHA_256 := Deno.SHA256;
  digestHex := @digestHex Deno.runtime;
  JSON_stringify := fun v =>
                      if hasBigInt v then Throw TypeError
                      else Ok (Json.stringify (doubles v))
|}.

Definition plain : JsValue Numeric :=
  JObject [("Client 1", JArray [JArray [JString "Token 1"; JNumber (Double 10)]])].

Definition precise : JsValue Numeric :=
  JObject [("Client 2", JArray [JArray [JString "Token 1"; JNumber (BigInt 5)]])].

End WithBigInt.

Module Scripted.

(** A scripted source for the default runtime: the draws are the doubles
    [j / 512], [9 <= j < 512], read off a list (and [256 / 512] once the list
    is used up).  On these the arithmetic of the generator is exact:
    [(j / 512) * n] is computed without rounding for a small integer [n], and
    [(j / 512) * (1e9 - 1e-9) + 1e-9] is the integer [1953125 * j], both the
    subtracted and the added [1e-9] being absorbed by the rounding. *)
Definition source : @Random Deno.runtime := {|
  RandomState := list nat;
  RandomNumber := nat;
  Math_random := fun script =>
                   match script with
                   | [] => (256%nat, [])
                   | j :: rest => (j, rest)
                   end;
  floorOfProduct := fun j n => (Z.of_nat j * n / 512)%Z;
  tokensOf := fun j => (1953125 * Z.of_nat j)%Z
|}.

(** Four clients with 2, 1, 3 and 1 accounts, then the draw of the third. *)
Definition script : list nat :=
  [60; 256; 128; 9; 500; 120; 10; 20; 30; 30; 40; 300]%nat.

End Scripted.

(** * Properties *)

(** ** Index arithmetic: parity and halving on [Z] and on [nat] *)

Lemma rem2_even idx : (Z.rem (Z.of_nat idx) 2 =? 0)%Z = Nat.even idx.
Proof.
  rewrite Z.rem_mod_nonneg by lia.
  destruct (Nat.even idx) eqn:E.
  - apply Nat.even_spec in E. destruct E as [k ->]. apply Z.eqb_eq.
    Z.div_mod_to_equations. lia.
  - apply Z.eqb_neq.
    assert (Ho : Nat.odd idx = true) by (rewrite <- Nat.negb_even, E; reflexivity).
    apply Nat.odd_spec in Ho. destruct Ho as [k ->].
    Z.div_mod_to_equations. lia.
Qed.

Lemma half_div2 idx : (Z.of_nat idx / 2)%Z = Z.of_nat (Nat.div2 idx).
Proof. rewrite Nat.div2_div, Nat2Z.inj_div. reflexivity. Qed.


Section Properties.

Context {rt : Runtime}.

(** ** The leaf hasher *)

Lemma invalidFormat_null : invalidFormat JNull = Throw TypeError.
Proof. reflexivity. Qed.

Lemma invalidFormat_not_null client :
  client <> JNull ->
  invalidFormat client = Ok (negb (isClientEntry client)).
Proof.
  intros Hnull. destruct client as [| | b | n | s | items | props]; try reflexivity.
  - congruence.
  - unfold invalidFormat. cbn. rewrite length_map.
    destruct props as [| p [| q rest]]; reflexivity.
Qed.

Lemma checkFormat_entries inputList :
  Forall (fun client => isClientEntry client = true) inputList ->
  checkFormat inputList = Ok tt.
Proof.
  induction 1 as [| client rest Hc _ IH]; [reflexivity |].
  cbn [checkFormat]. rewrite invalidFormat_not_null.
  - rewrite Hc. cbn. exact IH.
  - intros ->. discriminate.
Qed.

Lemma checkFormat_malformed inputList :
  ~ In JNull inputList ->
  Exists (fun client => isClientEntry client = false) inputList ->
  checkFormat inputList = Throw FormatError.
Proof.
  intros Hnull Hbad. induction Hbad as [client rest Hc | client rest _ IH].
  - cbn [checkFormat]. rewrite invalidFormat_not_null, Hc; [reflexivity |].
    intros ->. apply Hnull. now left.
  - cbn [checkFormat]. rewrite invalidFormat_not_null.
    + destruct (isClientEntry client); cbn; [| reflexivity].
      apply IH. intros Hin. apply Hnull. now right.
    + intros ->. apply Hnull. now left.
Qed.

Lemma checkFormat_inv inputList :
  checkFormat inputList = Ok tt ->
  Forall (fun client => isClientEntry client = true) inputList.
Proof.
  induction inputList as [| client rest IH]; intros H; [constructor |].
  cbn [checkFormat] in H.
  destruct client as [| | b | n | s | items | props]; try discriminate.
  unfold invalidFormat in H. cbn in H. rewrite length_map in H.
  destruct props as [| p [| q props]]; try discriminate.
  constructor; [reflexivity | apply IH; exact H].
Qed.

Lemma hashItems_inv algorithm inputList hashedList result :
  hashItems algorithm inputList hashedList = Ok result ->
  exists hashes,
    result = hashedList ++ hashes /\
    Forall2 (fun item h => hashItem algorithm item = Ok h) inputList hashes.
Proof.
  revert hashedList. induction inputList as [| item rest IH]; intros hashedList H.
  - injection H as <-. exists []. rewrite app_nil_r. split; constructor.
  - cbn [hashItems] in H. destruct (hashItem algorithm item) as [h | e] eqn:Hh;
      [| discriminate].
    cbn [bind] in H. destruct (IH _ H) as (hashes & -> & Hall).
    exists (h :: hashes). rewrite <- app_assoc. split; [reflexivity |].
    constructor; assumption.
Qed.

Lemma hashItems_serializable algorithm inputList hashedList :
  Forall serializable inputList ->
  exists hashes, hashItems algorithm inputList hashedList = Ok (hashedList ++ hashes).
Proof.
  intros Hser. revert hashedList.
  induction Hser as [| item rest [json Hj] _ IH]; intros hashedList.
  - exists []. now rewrite app_nil_r.
  - cbn [hashItems]. unfold hashItem. rewrite Hj. cbn [bind].
    destruct (IH (hashedList ++ [digestHex algorithm (TextEncoder_encode json)]))
      as [hashes Hh].
    exists (digestHex algorithm (TextEncoder_encode json) :: hashes).
    rewrite Hh, <- app_assoc. reflexivity.
Qed.

Lemma hashList_inv inputList algorithm hashes :
  hashList inputList algorithm = Ok hashes ->
  Forall (fun client => isClientEntry client = true) inputList /\
  Forall2 (fun item h => hashItem algorithm item = Ok h) inputList hashes.
Proof.
  unfold hashList. intros H.
  destruct (checkFormat inputList) as [[] | e] eqn:Hc; [| discriminate].
  cbn [bind] in H. apply hashItems_inv in H. destruct H as (hs & -> & Hall).
  split; [apply checkFormat_inv; exact Hc | exact Hall].
Qed.

Lemma hashList_total inputList algorithm :
  Forall (fun client => isClientEntry client = true) inputList ->
  Forall serializable inputList ->
  exists hashes, hashList inputList algorithm = Ok hashes.
Proof.
  intros Hwf Hser. unfold hashList. rewrite (checkFormat_entries _ Hwf). cbn [bind].
  destruct (hashItems_serializable algorithm inputList [] Hser) as [hs Hh].
  exists hs. exact Hh.
Qed.

(** ** The tree builder *)

Lemma list_pair_ind (P : list string -> Prop) :
  P [] ->
  (forall a, P [a]) ->
  (forall a b rest, P rest -> P (a :: b :: rest)) ->
  forall l, P l.
Proof.
  intros Hnil Hone Htwo.
  fix IH 1. intros [| a [| b rest]].
  - exact Hnil.
  - apply Hone.
  - apply Htwo. apply IH.
Qed.

Lemma skipn_cons_nth {A : Type} (d : A) (l : list A) i :
  (i < List.length l)%nat ->
  skipn i l = nth i l d :: skipn (S i) l.
Proof.
  revert i. induction l as [| a l IH]; intros i Hi; cbn in Hi; [lia |].
  destruct i as [| i]; [reflexivity |].
  cbn [skipn nth]. apply IH. lia.
Qed.

Lemma pairLoop_step algorithm hashes i nextLevel :
  pairLoop algorithm hashes i nextLevel =
  if (i <? List.length hashes)%nat
  then
    let leftHash := nth i hashes "" in
    let rightHash :=
      if (i + 1 <? List.length hashes)%nat then nth (i + 1) hashes "" else leftHash in
    pairLoop algorithm hashes (i + 2)
             (nextLevel ++ [digestHex algorithm (leftHash ++ rightHash)])
  else nextLevel.
Proof.
  rewrite pairLoop_equation_1.
  destruct (lt_dec i (List.length hashes)) as [Hlt | Hge]; cbn [pairLoop_unfold_clause_1].
  - apply Nat.ltb_lt in Hlt. rewrite Hlt. reflexivity.
  - apply Nat.ltb_nlt in Hge. rewrite Hge. reflexivity.
Qed.

Lemma pairLoop_pairUp algorithm hashes i nextLevel :
  pairLoop algorithm hashes i nextLevel
  = nextLevel ++ pairUp algorithm (skipn i hashes).
Proof.
  funelim (pairLoop algorithm hashes i nextLevel).
  - match goal with IH : pairLoop _ _ _ _ = _ ++ _ |- _ => rewrite IH end.
    rewrite <- app_assoc. f_equal.
    rewrite (skipn_cons_nth "" hashes i) by assumption.
    destruct (Nat.ltb_spec (i + 1) (List.length hashes)) as [Hlt | Hge].
    + rewrite (skipn_cons_nth "" hashes (S i)) by lia.
      replace (i + 1)%nat with (S i) by lia.
      replace (i + 2)%nat with (S (S i)) by lia. reflexivity.
    + rewrite (skipn_all2 hashes (n := S i)) by lia.
      rewrite (skipn_all2 hashes (n := (i + 2)%nat)) by lia. reflexivity.
  - rewrite skipn_all2 by lia. cbn. now rewrite app_nil_r.
Qed.

Lemma pairUp_length algorithm level :
  List.length (pairUp algorithm level) = Nat.div2 (S (List.length level)).
Proof.
  induction level as [| a | a b rest IH] using list_pair_ind; try reflexivity.
  cbn [pairUp List.length]. rewrite IH. reflexivity.
Qed.

Lemma pairAt_shift algorithm a b rest i :
  pairAt algorithm (a :: b :: rest) (S i) = pairAt algorithm rest i.
Proof.
  unfold pairAt. replace (2 * S i)%nat with (S (S (2 * i))) by lia.
  cbn [nth List.length Nat.add].
  change (S (S (2 * i + 1)) <? S (S (List.length rest)))%nat
    with (2 * i + 1 <? List.length rest)%nat.
  reflexivity.
Qed.

(** The source's pairing loop computes the pairing of the specification. *)
Lemma pairUp_pairedLevel algorithm level :
  pairUp algorithm level = pairedLevel algorithm level.
Proof.
  unfold pairedLevel.
  induction level as [| a | a b rest IH] using list_pair_ind; try reflexivity.
  cbn [pairUp List.length Nat.div2 seq map]. f_equal.
  rewrite IH, <- seq_shift, map_map.
  apply map_ext. intros i. symmetry. apply pairAt_shift.
Qed.

Lemma nth_pred_length_last (l : list string) :
  nth (List.length l - 1) l "" = last l "".
Proof.
  induction l as [| a l IH]; [reflexivity |].
  destruct l as [| b l]; [reflexivity |].
  change (last (a :: b :: l) "") with (last (b :: l) "").
  rewrite <- IH. cbn [List.length].
  replace (S (S (List.length l)) - 1)%nat with (S (S (List.length l) - 1)) by lia.
  reflexivity.
Qed.

Lemma odd_mod2 n : negb (n mod 2 =? 0)%nat = Nat.odd n.
Proof.
  rewrite <- Nat.negb_even. f_equal.
  destruct (Nat.even n) eqn:E.
  - apply Nat.eqb_eq. apply Nat.even_spec in E. destruct E as [k ->].
    rewrite Nat.mul_comm. apply Nat.Div0.mod_mul.
  - apply Nat.eqb_neq. intros Hm.
    assert (Nat.even n = true); [| congruence].
    apply Nat.even_spec. exists (n / 2)%nat.
    pose proof (Nat.div_mod_eq n 2). lia.
Qed.

(** One turn of the outer loop is the level construction rule followed by
    the secondary padding rule. *)
Lemma buildLevel_spec algorithm hashes :
  buildLevel algorithm hashes = nextLevelSpec algorithm hashes.
Proof.
  unfold buildLevel, nextLevelSpec. cbv zeta.
  rewrite pairLoop_pairUp. cbn [skipn app].
  rewrite pairUp_pairedLevel, odd_mod2, nth_pred_length_last. reflexivity.
Qed.

Lemma buildLevel_length algorithm hashes :
  List.length (buildLevel algorithm hashes)
  = let paired := Nat.div2 (S (List.length hashes)) in
    if Nat.odd paired && (2 <? List.length hashes)%nat then S paired else paired.
Proof.
  rewrite buildLevel_spec. unfold nextLevelSpec. cbv zeta.
  rewrite <- pairUp_pairedLevel, pairUp_length.
  destruct (Nat.odd _ && _).
  - rewrite length_app, pairUp_length. cbn. lia.
  - apply pairUp_length.
Qed.

Lemma growTree_step algorithm hashes fullTree :
  growTree algorithm hashes fullTree =
  if (1 <? List.length hashes)%nat
  then growTree algorithm (buildLevel algorithm hashes)
                (fullTree ++ [buildLevel algorithm hashes])
  else fullTree.
Proof.
  rewrite growTree_equation_1.
  destruct (lt_dec 1 (List.length hashes)) as [Hlt | Hge]; cbn [growTree_unfold_clause_1].
  - apply Nat.ltb_lt in Hlt. rewrite Hlt. reflexivity.
  - apply Nat.ltb_nlt in Hge. rewrite Hge. reflexivity.
Qed.

Lemma growTree_app algorithm hashes fullTree :
  growTree algorithm hashes fullTree = fullTree ++ levelsAbove algorithm hashes.
Proof.
  unfold levelsAbove.
  remember (List.length hashes) as n eqn:Hn.
  revert hashes fullTree Hn.
  induction n as [n IH] using lt_wf_ind. intros hashes fullTree ->.
  rewrite (growTree_step algorithm hashes fullTree), (growTree_step algorithm hashes []).
  destruct (Nat.ltb_spec 1 (List.length hashes)) as [Hlt | Hge].
  - pose proof (buildLevel_shorter algorithm hashes Hlt) as Hs.
    rewrite (IH _ Hs _ (fullTree ++ [buildLevel algorithm hashes]) eq_refl).
    rewrite (IH _ Hs _ ([] ++ [buildLevel algorithm hashes]) eq_refl).
    rewrite <- app_assoc. reflexivity.
  - now rewrite app_nil_r.
Qed.

Lemma levelsAbove_step algorithm hashes :
  levelsAbove algorithm hashes =
  if (1 <? List.length hashes)%nat
  then buildLevel algorithm hashes :: levelsAbove algorithm (buildLevel algorithm hashes)
  else [].
Proof.
  unfold levelsAbove at 1. rewrite growTree_step.
  destruct (1 <? List.length hashes)%nat; [| reflexivity].
  rewrite growTree_app. reflexivity.
Qed.

(** What computeMerkleTree returns, when it returns. *)
Lemma computeMerkleTree_inv inputList algorithm tree :
  computeMerkleTree inputList algorithm = Ok tree ->
  exists hashes,
    hashList inputList SHA_256 = Ok hashes /\
    hashes <> [] /\
    tree = hashes :: levelsAbove algorithm hashes.
Proof.
  unfold computeMerkleTree. intros H.
  destruct (List.length inputList =? 0)%nat; [discriminate |].
  destruct (hashList inputList SHA_256) as [hashes | e]; [| discriminate].
  cbn [bind] in H.
  destruct (List.length hashes =? 0)%nat eqn:E; [discriminate |].
  injection H as <-. exists hashes. repeat split.
  - intros ->. discriminate.
  - apply (growTree_app algorithm hashes [hashes]).
Qed.

(** On a non-empty well-formed list computeMerkleTree returns the leaf hashes
    followed by the levels above them. *)
Lemma computeMerkleTree_total inputList algorithm :
  inputList <> [] ->
  wellFormed inputList ->
  exists hashes,
    hashList inputList SHA_256 = Ok hashes /\
    List.length hashes = List.length inputList /\
    computeMerkleTree inputList algorithm = Ok (hashes :: levelsAbove algorithm hashes).
Proof.
  intros Hne [Hwf Hser].
  destruct (hashList_total inputList SHA_256 Hwf Hser) as [hashes Hh].
  pose proof (hashList_inv _ _ _ Hh) as [_ Hall].
  apply Forall2_length in Hall.
  exists hashes. split; [exact Hh | split; [now symmetry |]].
  unfold computeMerkleTree. rewrite Hh. cbn [bind].
  destruct inputList as [| c rest]; [congruence |].
  destruct hashes as [| h hs]; [discriminate |].
  cbn [List.length Nat.eqb]. f_equal.
  apply (growTree_app algorithm (h :: hs) [h :: hs]).
Qed.

Lemma levelsAbove_last algorithm hashes :
  hashes <> [] ->
  exists root, last (hashes :: levelsAbove algorithm hashes) [] = [root].
Proof.
  remember (List.length hashes) as n eqn:Hn. revert hashes Hn.
  induction n as [n IH] using lt_wf_ind. intros hashes -> Hne.
  rewrite levelsAbove_step.
  destruct (Nat.ltb_spec 1 (List.length hashes)) as [Hlt | Hge].
  - pose proof (buildLevel_shorter algorithm hashes Hlt) as Hs.
    assert (Hb : buildLevel algorithm hashes <> []).
    { intros E. pose proof (buildLevel_length algorithm hashes) as Hl.
      rewrite E in Hl. cbv zeta in Hl. cbn [List.length] in Hl.
      destruct hashes as [| a [| b hs]]; cbn [List.length] in Hlt; try lia.
      cbn [List.length Nat.div2] in Hl.
      destruct (Nat.odd _ && _); discriminate. }
    destruct (IH _ Hs _ eq_refl Hb) as [root Hr].
    exists root. exact Hr.
  - destruct hashes as [| a [| b hs]]; cbn [List.length] in Hge; try lia; try congruence.
    exists a. reflexivity.
Qed.

Lemma levelsAbove_count algorithm hashes :
  hashes <> [] ->
  (List.length (levelsAbove algorithm hashes) < List.length hashes)%nat.
Proof.
  remember (List.length hashes) as n eqn:Hn. revert hashes Hn.
  induction n as [n IH] using lt_wf_ind. intros hashes -> Hne.
  rewrite levelsAbove_step.
  destruct (Nat.ltb_spec 1 (List.length hashes)) as [Hlt | Hge].
  - pose proof (buildLevel_shorter algorithm hashes Hlt) as Hs.
    cbn [List.length].
    destruct (buildLevel algorithm hashes) as [| b bs] eqn:Eb.
    + rewrite levelsAbove_step. cbn. lia.
    + assert (Hb : b :: bs <> []) by discriminate.
      pose proof (IH _ Hs _ eq_refl Hb). lia.
  - destruct hashes; [congruence | cbn; lia].
Qed.

(** The arithmetic of the widths: halving (and padding an odd width above
    a level wider than 2) lowers the rounded-up logarithm by one. *)
Lemma log2_up_halved n :
  (2 <= n)%nat ->
  let paired := Nat.div2 (S n) in
  Nat.log2_up n
  = S (Nat.log2_up (if Nat.odd paired && (2 <? n)%nat then S paired else paired)).
Proof.
  intros Hn paired.
  assert (Hq : (2 * paired <= S n < 2 * paired + 2)%nat).
  { unfold paired. rewrite Nat.div2_div.
    pose proof (Nat.div_mod_eq (S n) 2) as Hd.
    pose proof (Nat.mod_upper_bound (S n) 2 ltac:(lia)). lia. }
  clearbody paired.
  pose proof (Nat.log2_up_spec n ltac:(lia)) as Hspec.
  destruct (Nat.log2_up n) as [| [| k]] eqn:Hk.
  - cbn in Hspec. lia.
  - cbn in Hspec. assert (n = 2)%nat by lia. subst n.
    assert (paired = 1)%nat by lia. subst paired. reflexivity.
  - f_equal. cbn [Nat.pred] in Hspec.
    rewrite !Nat.pow_succ_r' in Hspec.
    set (P := (2 ^ k)%nat) in *.
    assert (HP : (0 < P)%nat) by (unfold P; apply Nat.neq_0_lt_0, Nat.pow_nonzero; lia).
    symmetry. apply Nat.log2_up_unique; [lia |].
    cbn [Nat.pred]. rewrite Nat.pow_succ_r'. fold P.
    destruct (Nat.odd paired) eqn:Hodd; cbn [andb].
    + destruct (Nat.ltb_spec 2 n) as [H2 | H2]; [| lia].
      apply Nat.odd_spec in Hodd. destruct Hodd as [r Hr]. lia.
    + lia.
Qed.

Lemma depth_log2_up algorithm hashes :
  hashes <> [] ->
  List.length (hashes :: levelsAbove algorithm hashes)
  = (Nat.log2_up (List.length hashes) + 1)%nat.
Proof.
  remember (List.length hashes) as n eqn:Hn. revert hashes Hn.
  induction n as [n IH] using lt_wf_ind. intros hashes -> Hne.
  rewrite levelsAbove_step.
  destruct (Nat.ltb_spec 1 (List.length hashes)) as [Hlt | Hge].
  - pose proof (buildLevel_shorter algorithm hashes Hlt) as Hs.
    assert (Hb : buildLevel algorithm hashes <> []).
    { intros E. pose proof (levelsAbove_last algorithm hashes Hne) as [root Hr].
      rewrite levelsAbove_step in Hr.
      apply Nat.ltb_lt in Hlt. rewrite Hlt, E in Hr.
      rewrite levelsAbove_step in Hr. cbn in Hr. discriminate. }
    change (List.length (hashes :: buildLevel algorithm hashes
                                 :: levelsAbove algorithm (buildLevel algorithm hashes)))
      with (S (List.length (buildLevel algorithm hashes
                              :: levelsAbove algorithm (buildLevel algorithm hashes)))).
    rewrite (IH _ Hs _ eq_refl Hb).
    rewrite (log2_up_halved (List.length hashes)) by lia.
    rewrite buildLevel_length. cbv zeta. lia.
  - destruct hashes as [| a [| b hs]]; cbn [List.length] in Hge; try lia; try congruence.
    reflexivity.
Qed.

(** ** The proof generator *)

Lemma proofLoop_step merkleTree i index proof :
  proofLoop merkleTree i index proof =
  if (i <? List.length merkleTree - 1)%nat
  then
    let isIndexEven := (Z.rem index 2 =? 0)%Z in
    let siblingIndex := if isIndexEven then (index + 1)%Z else (index - 1)%Z in
    let level := nth i merkleTree [] in
    let proof' :=
      if (0 <=? siblingIndex)%Z && (siblingIndex <? Z.of_nat (List.length level))%Z
      then proof ++ [{| hash := nth (Z.to_nat siblingIndex) level "";
                        isRight := isIndexEven |}]
      else proof in
    proofLoop merkleTree (i + 1) (index / 2)%Z proof'
  else proof.
Proof.
  rewrite proofLoop_equation_1.
  destruct (lt_dec i (List.length merkleTree - 1)) as [Hlt | Hge];
    cbn [proofLoop_unfold_clause_1].
  - apply Nat.ltb_lt in Hlt. rewrite Hlt. reflexivity.
  - apply Nat.ltb_nlt in Hge. rewrite Hge. reflexivity.
Qed.

(** The index-driven loop collects the entries of [climb], level by level. *)
Lemma proofLoop_climb merkleTree i idx proof :
  proofLoop merkleTree i (Z.of_nat idx) proof
  = proof ++ climb (skipn i merkleTree) idx.
Proof.
  remember (List.length merkleTree - 1 - i)%nat as m eqn:Hm.
  revert i idx proof Hm.
  induction m as [m IH] using lt_wf_ind. intros i idx proof ->.
  rewrite proofLoop_step.
  destruct (Nat.ltb_spec i (List.length merkleTree - 1)) as [Hlt | Hge].
  - cbv zeta. rewrite rem2_even, half_div2.
    rewrite (IH (List.length merkleTree - 1 - (i + 1))%nat ltac:(lia)
                (i + 1)%nat (Nat.div2 idx) _ eq_refl).
    rewrite (skipn_cons_nth [] merkleTree i) by lia.
    replace (i + 1)%nat with (S i) by lia.
    destruct (skipn (S i) merkleTree) as [| above upper] eqn:Es.
    { apply (f_equal (@List.length _)) in Es. rewrite length_skipn in Es.
      cbn [List.length] in Es. lia. }
    cbn [climb]. rewrite app_assoc. f_equal.
    set (level := nth i merkleTree []).
    destruct (Nat.even idx) eqn:E.
    + replace (Z.of_nat idx + 1)%Z with (Z.of_nat (S idx)) by lia.
      rewrite Nat2Z.id.
      destruct (Nat.ltb_spec (S idx) (List.length level)) as [Hs | Hs].
      * replace ((0 <=? Z.of_nat (S idx))%Z && (Z.of_nat (S idx) <? Z.of_nat (List.length level))%Z)
          with true by (symmetry; apply andb_true_iff; split;
                        [apply Z.leb_le | apply Z.ltb_lt]; lia).
        reflexivity.
      * replace ((0 <=? Z.of_nat (S idx))%Z && (Z.of_nat (S idx) <? Z.of_nat (List.length level))%Z)
          with false by (symmetry; apply andb_false_iff; right; apply Z.ltb_ge; lia).
        now rewrite app_nil_r.
    + assert (Hpos : (0 < idx)%nat) by (destruct idx; [discriminate | lia]).
      replace (Z.of_nat idx - 1)%Z with (Z.of_nat (pred idx)) by lia.
      rewrite Nat2Z.id.
      destruct (Nat.ltb_spec (pred idx) (List.length level)) as [Hs | Hs].
      * replace ((0 <=? Z.of_nat (pred idx))%Z
                 && (Z.of_nat (pred idx) <? Z.of_nat (List.length level))%Z)
          with true by (symmetry; apply andb_true_iff; split;
                        [apply Z.leb_le | apply Z.ltb_lt]; lia).
        reflexivity.
      * replace ((0 <=? Z.of_nat (pred idx))%Z
                 && (Z.of_nat (pred idx) <? Z.of_nat (List.length level))%Z)
          with false by (symmetry; apply andb_false_iff; right; apply Z.ltb_ge; lia).
        now rewrite app_nil_r.
  - assert (Hshort : climb (skipn i merkleTree) idx = []).
    { destruct (Nat.lt_ge_cases i (List.length merkleTree)) as [Hi | Hi].
      - rewrite (skipn_cons_nth [] merkleTree i) by lia.
        rewrite (skipn_all2 merkleTree (n := S i)) by lia. reflexivity.
      - rewrite skipn_all2 by lia. reflexivity. }
    rewrite Hshort. now rewrite app_nil_r.
Qed.

(** [indexOf] finds the lowest index holding the value, or [-1]. *)
Lemma indexOf_from_spec arr x z :
  (~ In x arr /\ indexOf_from arr x z = (-1)%Z) \/
  (exists n, nth_error arr n = Some x /\
             (forall m, (m < n)%nat -> nth_error arr m <> Some x) /\
             indexOf_from arr x z = (z + Z.of_nat n)%Z).
Proof.
  revert z. induction arr as [| y rest IH]; intros z.
  - left. split; [intros [] | reflexivity].
  - cbn [indexOf_from]. destruct (String.eqb_spec y x) as [-> | Hneq].
    + right. exists 0%nat. repeat split.
      * intros m Hm. lia.
      * lia.
    + destruct (IH (z + 1)%Z) as [[Hnot Heq] | (n & Hn & Hfirst & Heq)].
      * left. split; [| exact Heq]. intros [E | Hin]; [congruence | contradiction].
      * right. exists (S n). repeat split.
        -- exact Hn.
        -- intros [| m] Hm; cbn; [congruence | apply Hfirst; lia].
        -- rewrite Heq. lia.
Qed.

Lemma generateMerkleProofWithOrder_absent leaves upper leafHash :
  ~ In leafHash leaves ->
  generateMerkleProofWithOrder (Some leafHash) (leaves :: upper) = Ok None.
Proof.
  intros Hnot. unfold generateMerkleProofWithOrder. cbn [level0 nth_error bind indexOf].
  destruct (indexOf_from_spec leaves leafHash 0) as [[_ Heq] | (n & Hn & _)].
  - rewrite Heq. reflexivity.
  - exfalso. apply Hnot. eapply nth_error_In. exact Hn.
Qed.

Lemma generateMerkleProofWithOrder_first leaves upper leafHash n :
  nth_error leaves n = Some leafHash ->
  (forall m, (m < n)%nat -> nth_error leaves m <> Some leafHash) ->
  generateMerkleProofWithOrder (Some leafHash) (leaves :: upper)
  = Ok (Some (climb (leaves :: upper) n)).
Proof.
  intros Hn Hfirst. unfold generateMerkleProofWithOrder.
  cbn [level0 nth_error bind indexOf].
  destruct (indexOf_from_spec leaves leafHash 0) as [[Hnot _] | (k & Hk & Hkfirst & Heq)].
  - exfalso. apply Hnot. eapply nth_error_In. exact Hn.
  - assert (k = n).
    { destruct (Nat.lt_trichotomy k n) as [Hlt | [E | Hgt]]; [| exact E |].
      - exfalso. exact (Hfirst k Hlt Hk).
      - exfalso. exact (Hkfirst n Hgt Hn). }
    subst k. rewrite Heq. cbn [Z.add].
    destruct (Z.eqb_spec (Z.of_nat n) (-1)) as [E | _]; [lia |].
    rewrite proofLoop_climb. reflexivity.
Qed.

(** ** The verifier *)

Lemma fold_left_foldProof algorithm proof computedHash :
  fold_left (combine algorithm) proof computedHash
  = foldProof algorithm computedHash proof.
Proof.
  revert computedHash. induction proof as [| entry rest IH]; intros computedHash.
  - reflexivity.
  - cbn [fold_left foldProof]. rewrite IH. unfold combine.
    destruct (isRight entry); reflexivity.
Qed.

Lemma foldProof_app algorithm computedHash front back :
  foldProof algorithm computedHash (front ++ back)
  = foldProof algorithm (foldProof algorithm computedHash front) back.
Proof.
  revert computedHash. induction front as [| entry rest IH]; intros computedHash.
  - reflexivity.
  - cbn [app foldProof]. apply IH.
Qed.

Lemma verifyMerkleProofWithOrder_fold leafRawData merkleRoot proof algorithm json :
  JSON_stringify leafRawData = Ok json ->
  verifyMerkleProofWithOrder leafRawData merkleRoot proof algorithm
  = Ok (foldProof algorithm (digestHex algorithm (TextEncoder_encode json)) proof
        =? merkleRoot).
Proof.
  intros Hj. unfold verifyMerkleProofWithOrder. rewrite Hj. cbn [bind].
  rewrite fold_left_foldProof. reflexivity.
Qed.

(** ** From a leaf to the root *)

Lemma pairUp_nth algorithm level k :
  (k < Nat.div2 (S (List.length level)))%nat ->
  nth k (pairUp algorithm level) "" = pairAt algorithm level k.
Proof.
  intros Hk. rewrite pairUp_pairedLevel. unfold pairedLevel.
  rewrite (nth_indep _ "" (pairAt algorithm level 0))
    by (rewrite length_map, length_seq; exact Hk).
  rewrite map_nth, seq_nth by exact Hk. reflexivity.
Qed.

Lemma buildLevel_nth algorithm hashes k :
  (k < Nat.div2 (S (List.length hashes)))%nat ->
  nth k (buildLevel algorithm hashes) "" = pairAt algorithm hashes k.
Proof.
  intros Hk. unfold buildLevel. cbv zeta.
  rewrite pairLoop_pairUp. cbn [skipn app].
  destruct (negb _ && _).
  - rewrite app_nth1 by (rewrite pairUp_length; exact Hk). now apply pairUp_nth.
  - now apply pairUp_nth.
Qed.

(** Above a level wider than 2 every level has an even width: only level 0
    can hold an entry without a sibling. *)
Lemma buildLevel_even algorithm hashes :
  (2 < List.length hashes)%nat ->
  Nat.even (List.length (buildLevel algorithm hashes)) = true.
Proof.
  intros Hlen. rewrite buildLevel_length. cbv zeta.
  apply Nat.ltb_lt in Hlen. rewrite Hlen, andb_true_r.
  destruct (Nat.odd (Nat.div2 (S (List.length hashes)))) eqn:E.
  - rewrite Nat.even_succ. exact E.
  - rewrite <- Nat.negb_odd, E. reflexivity.
Qed.

Lemma div2_bounds n : (2 * Nat.div2 n <= n < 2 * Nat.div2 n + 2)%nat.
Proof.
  rewrite Nat.div2_div. pose proof (Nat.div_mod_eq n 2).
  pose proof (Nat.mod_upper_bound n 2 ltac:(lia)). lia.
Qed.

Lemma even_double_div2 n : Nat.even n = true -> n = (2 * Nat.div2 n)%nat.
Proof.
  intros E. apply Nat.even_spec in E. destruct E as [k Hk].
  pose proof (div2_bounds n). lia.
Qed.

Lemma odd_double_div2 n : Nat.even n = false -> n = (2 * Nat.div2 n + 1)%nat.
Proof.
  intros E.
  assert (Ho : Nat.odd n = true) by (rewrite <- Nat.negb_even, E; reflexivity).
  apply Nat.odd_spec in Ho. destruct Ho as [k Hk].
  pose proof (div2_bounds n). lia.
Qed.

(** An entry of a level that has its sibling inside the level folds, along
    the collected path, to the root. *)
Lemma climb_reaches_root algorithm hashes idx root :
  (idx < List.length hashes)%nat ->
  (List.length hashes <= 1 \/ Nat.even idx = false \/ S idx < List.length hashes)%nat ->
  last (hashes :: levelsAbove algorithm hashes) [] = [root] ->
  foldProof algorithm (nth idx hashes "")
            (climb (hashes :: levelsAbove algorithm hashes) idx) = root.
Proof.
  remember (List.length hashes) as n eqn:Hn. revert hashes idx Hn.
  induction n as [n IH] using lt_wf_ind. intros hashes idx -> Hidx Hsib Hroot.
  rewrite levelsAbove_step in Hroot |- *.
  destruct (Nat.ltb_spec 1 (List.length hashes)) as [Hlt | Hge].
  - set (next := buildLevel algorithm hashes) in *.
    pose proof (buildLevel_shorter algorithm hashes Hlt) as Hs. fold next in Hs.
    pose proof (buildLevel_length algorithm hashes) as Hl. fold next in Hl.
    cbv zeta in Hl.
    pose proof (div2_bounds (S (List.length hashes))) as Hb.
    pose proof (div2_bounds idx) as Hi.
    assert (Hhalf : (Nat.div2 idx < Nat.div2 (S (List.length hashes)))%nat) by lia.
    assert (Hnext : (Nat.div2 idx < List.length next)%nat).
    { rewrite Hl. destruct (Nat.odd _ && _); lia. }
    change (climb (hashes :: next :: levelsAbove algorithm next) idx)
      with ((let sibling := if Nat.even idx then S idx else pred idx in
             if (sibling <? List.length hashes)%nat
             then [{| hash := nth sibling hashes ""; isRight := Nat.even idx |}]
             else [])
            ++ climb (next :: levelsAbove algorithm next) (Nat.div2 idx)).
    cbv zeta. rewrite foldProof_app.
    assert (Hstep :
      foldProof algorithm (nth idx hashes "")
        (if ((if Nat.even idx then S idx else pred idx) <? List.length hashes)%nat
         then [{| hash := nth (if Nat.even idx then S idx else pred idx) hashes "";
                  isRight := Nat.even idx |}]
         else [])
      = nth (Nat.div2 idx) next "").
    { unfold next. rewrite buildLevel_nth by exact Hhalf. unfold pairAt.
      destruct (Nat.even idx) eqn:E.
      - assert (Hs' : (S idx < List.length hashes)%nat)
          by (destruct Hsib as [H | [H | H]]; [lia | discriminate | exact H]).
        pose proof (even_double_div2 idx E) as Hd.
        apply Nat.ltb_lt in Hs'. rewrite Hs'. cbn [foldProof isRight hash].
        replace (2 * Nat.div2 idx + 1)%nat with (S idx) by lia.
        rewrite Hs'. rewrite <- Hd. reflexivity.
      - pose proof (odd_double_div2 idx E) as Hd.
        assert (Hp : (pred idx <? List.length hashes)%nat = true)
          by (apply Nat.ltb_lt; lia).
        rewrite Hp. cbn [foldProof isRight hash].
        replace (2 * Nat.div2 idx + 1)%nat with idx by lia.
        apply Nat.ltb_lt in Hidx. rewrite Hidx.
        replace (pred idx) with (2 * Nat.div2 idx)%nat by lia. reflexivity. }
    rewrite Hstep.
    apply (IH _ Hs next (Nat.div2 idx) eq_refl Hnext).
    + destruct (Nat.le_gt_cases (List.length hashes) 2) as [H2 | H2].
      * left. rewrite Hl.
        replace (2 <? List.length hashes)%nat with false
          by (symmetry; apply Nat.ltb_ge; exact H2).
        rewrite andb_false_r. lia.
      * pose proof (buildLevel_even algorithm hashes H2) as He. fold next in He.
        destruct (Nat.even (Nat.div2 idx)) eqn:E; [| right; left; reflexivity].
        right. right.
        pose proof (even_double_div2 _ He). pose proof (even_double_div2 _ E). lia.
    + exact Hroot.
  - assert (Hone : hashes = [root]).
    { destruct hashes as [| a [| b hs]]; cbn [List.length] in Hge; try lia.
      - cbn in Hidx. lia.
      - cbn in Hroot. exact Hroot. }
    subst hashes. cbn in Hidx. assert (idx = 0)%nat by lia. subst idx. reflexivity.
Qed.

(** ** The batch generator *)

Lemma generateMerkleProofWithOrder_cases leafHash leaves upper :
  generateMerkleProofWithOrder leafHash (leaves :: upper) = Ok None \/
  exists proof, generateMerkleProofWithOrder leafHash (leaves :: upper) = Ok (Some proof).
Proof.
  unfold generateMerkleProofWithOrder. cbn [level0 nth_error bind].
  destruct (indexOf leaves leafHash =? -1)%Z; [left | right; eexists]; reflexivity.
Qed.

Lemma everyUserLoop_inv inputList leaves upper i path result :
  everyUserLoop inputList (leaves :: upper) i path = Ok result ->
  exists entries,
    result = path ++ entries /\
    List.length entries = List.length inputList /\
    forall k client,
      nth_error inputList k = Some client ->
      exists keys proof,
        Object_keys client = Ok keys /\
        generateMerkleProofWithOrder (nth_error leaves (i + k)) (leaves :: upper)
        = Ok (Some proof) /\
        nth_error entries k = Some (ToString (nth_error keys 0), proof).
Proof.
  revert i path. induction inputList as [| client rest IH]; intros i path H.
  - injection H as <-. exists []. rewrite app_nil_r. repeat split.
    intros [| k] c Hk; discriminate.
  - cbn [everyUserLoop] in H.
    destruct (Object_keys client) as [keys | e] eqn:Hkeys; [| discriminate].
    cbn [bind level0 nth_error] in H.
    destruct (generateMerkleProofWithOrder (nth_error leaves i) (leaves :: upper))
      as [[proof |] | e] eqn:Hgen; try discriminate.
    cbn [bind] in H. destruct (IH _ _ H) as (entries & -> & Hlen & Hall).
    exists ((ToString (nth_error keys 0), proof) :: entries).
    rewrite <- app_assoc. repeat split.
    + cbn [List.length]. now rewrite Hlen.
    + intros [| k] c Hk.
      * injection Hk as <-. exists keys, proof. rewrite Nat.add_0_r. repeat split; assumption.
      * cbn [nth_error] in Hk. destruct (Hall k c Hk) as (ks & p & H1 & H2 & H3).
        exists ks, p. replace (i + S k)%nat with (i + 1 + k)%nat by lia.
        repeat split; assumption.
Qed.

Lemma everyUserLoop_not_found inputList leaves upper i path :
  Forall (fun client => isClientEntry client = true) inputList ->
  (exists k client,
      nth_error inputList k = Some client /\
      generateMerkleProofWithOrder (nth_error leaves (i + k)) (leaves :: upper) = Ok None) ->
  exists k id accounts,
    nth_error inputList k = Some (JObject [(id, accounts)]) /\
    generateMerkleProofWithOrder (nth_error leaves (i + k)) (leaves :: upper) = Ok None /\
    everyUserLoop inputList (leaves :: upper) i path = Throw (ProofNotFoundError id).
Proof.
  intros Hwf. revert i path.
  induction Hwf as [| client rest Hc _ IH]; intros i path (k & c & Hk & Hnone).
  - destruct k; discriminate.
  - destruct client as [| | | | | | [| [id accounts] [| q props]]]; try discriminate.
    cbn [everyUserLoop Object_keys map fst bind level0 nth_error].
    destruct (generateMerkleProofWithOrder_cases (nth_error leaves i) leaves upper)
      as [Hgen | [proof Hgen]].
    + exists 0%nat, id, accounts. rewrite Nat.add_0_r, Hgen. repeat split.
    + rewrite Hgen. cbn [bind].
      destruct k as [| k].
      * rewrite Nat.add_0_r in Hnone. congruence.
      * cbn [nth_error] in Hk.
        replace (i + S k)%nat with (i + 1 + k)%nat in Hnone by lia.
        destruct (IH (i + 1)%nat (path ++ [(ToString (Some id), proof)])
                     (ex_intro _ k (ex_intro _ c (conj Hk Hnone))))
          as (k' & id' & accounts' & H1 & H2 & H3).
        exists (S k'), id', accounts'.
        replace (i + S k')%nat with (i + 1 + k')%nat by lia.
        repeat split; assumption.
Qed.

Lemma chain_next algorithm hashes k level :
  nth_error (hashes :: levelsAbove algorithm hashes) k = Some level ->
  (1 < List.length level)%nat ->
  nth_error (hashes :: levelsAbove algorithm hashes) (S k)
  = Some (buildLevel algorithm level).
Proof.
  revert hashes. induction k as [| k IH]; intros hashes Hk Hlen.
  - injection Hk as <-. rewrite levelsAbove_step.
    apply Nat.ltb_lt in Hlen. rewrite Hlen. reflexivity.
  - cbn [nth_error] in Hk |- *. rewrite levelsAbove_step in Hk |- *.
    destruct (1 <? List.length hashes)%nat; [| destruct k; discriminate].
    apply (IH _ Hk Hlen).
Qed.

(** ** The properties of the specification *)

(** C2: in the tree built by computeMerkleTree, the level after a level of
    length at least 2 is that level paired up (entry [i] hashes the entries
    [2i] and [2i+1], the last entry being paired with itself when it has no
    right partner), with its last entry duplicated once exactly when the
    paired level has an odd length and the level it was built from is longer
    than 2; the padded level then has an even length. *)
Theorem tree_levels_follow_construction_rule inputList algorithm tree k level :
  computeMerkleTree inputList algorithm = Ok tree ->
  nth_error tree k = Some level ->
  (2 <= List.length level)%nat ->
  nth_error tree (S k) = Some (nextLevelSpec algorithm level) /\
  (Nat.odd (List.length (pairedLevel algorithm level)) && (2 <? List.length level)%nat = true ->
   Nat.even (List.length (nextLevelSpec algorithm level)) = true).
Proof.
  intros Htree Hk Hlen.
  destruct (computeMerkleTree_inv _ _ _ Htree) as (hashes & _ & _ & ->).
  split.
  - rewrite <- buildLevel_spec. apply chain_next; [exact Hk | lia].
  - intros Hpad. unfold nextLevelSpec. cbv zeta. rewrite Hpad.
    apply andb_true_iff in Hpad. destruct Hpad as [Hodd _].
    rewrite length_app. cbn [List.length]. rewrite Nat.add_1_r, Nat.even_succ.
    exact Hodd.
Qed.

(** C3: the tree computeMerkleTree returns for a list of N entries has
    ceil(log2 N) + 1 levels: 4 levels for 5 entries, and a single level for
    a single entry, whose proof is then the empty sequence. *)
Theorem tree_depth_log2_up inputList algorithm tree :
  computeMerkleTree inputList algorithm = Ok tree ->
  List.length tree = (Nat.log2_up (List.length inputList) + 1)%nat /\
  (List.length inputList = 5%nat -> List.length tree = 4%nat) /\
  (List.length inputList = 1%nat ->
   List.length tree = 1%nat /\
   exists leaf,
     hashList inputList SHA_256 = Ok [leaf] /\
     generateMerkleProofWithOrder (Some leaf) tree = Ok (Some [])).
Proof.
  intros Htree.
  destruct (computeMerkleTree_inv _ _ _ Htree) as (hashes & Hh & Hne & ->).
  pose proof (hashList_inv _ _ _ Hh) as [_ Hall]. apply Forall2_length in Hall.
  assert (Hdepth : List.length (hashes :: levelsAbove algorithm hashes)
                   = (Nat.log2_up (List.length inputList) + 1)%nat)
    by (rewrite Hall; apply depth_log2_up; exact Hne).
  split; [exact Hdepth |]. split.
  - intros H5. rewrite Hdepth, H5. reflexivity.
  - intros H1. split; [rewrite Hdepth, H1; reflexivity |].
    destruct hashes as [| leaf [| b hs]]; cbn [List.length] in Hall; try lia.
    exists leaf. split; [exact Hh |].
    rewrite levelsAbove_step. cbn [List.length Nat.ltb Nat.leb].
    rewrite (generateMerkleProofWithOrder_first [leaf] [] leaf 0 eq_refl).
    + reflexivity.
    + intros m Hm. lia.
Qed.

(** C4: on a serializable entry verifyMerkleProofWithOrder folds the proof
    in order from the entry's hash (computedHash then sibling when the side
    flag is right, sibling then computedHash otherwise, the concatenation
    hashed) and returns the exact comparison of the result with the claimed
    root: it does not throw, and a root different from the folded hash gives
    false. *)
Theorem verify_folds_proof_in_order leafRawData merkleRoot proof algorithm json :
  JSON_stringify leafRawData = Ok json ->
  let folded :=
    foldProof algorithm (digestHex algorithm (TextEncoder_encode json)) proof in
  verifyMerkleProofWithOrder leafRawData merkleRoot proof algorithm
  = Ok (folded =? merkleRoot) /\
  (merkleRoot <> folded ->
   verifyMerkleProofWithOrder leafRawData merkleRoot proof algorithm = Ok false) /\
  (merkleRoot = folded ->
   verifyMerkleProofWithOrder leafRawData merkleRoot proof algorithm = Ok true) /\
  (forall e, verifyMerkleProofWithOrder leafRawData merkleRoot proof algorithm <> Throw e).
Proof.
  intros Hj folded.
  pose proof (verifyMerkleProofWithOrder_fold leafRawData merkleRoot proof algorithm json Hj)
    as Hv. fold folded in Hv.
  split; [exact Hv |]. rewrite Hv. repeat split.
  - intros Hneq. f_equal. apply String.eqb_neq. congruence.
  - intros ->. f_equal. apply String.eqb_refl.
  - intros e. discriminate.
Qed.

(** C5: looking up a hash that level 0 does not hold returns not-found
    without throwing; and when the lookup of any client of the batch
    returns not-found, generateProofForEveryUser throws the
    ProofNotFoundError naming such a client, and returns no paths. *)
Theorem lookup_not_found_and_batch_all_or_nothing inputList leaves upper :
  Forall (fun client => isClientEntry client = true) inputList ->
  (forall leafHash,
      ~ In leafHash leaves ->
      generateMerkleProofWithOrder (Some leafHash) (leaves :: upper) = Ok None) /\
  ((exists i client,
       nth_error inputList i = Some client /\
       generateMerkleProofWithOrder (nth_error leaves i) (leaves :: upper) = Ok None) ->
   exists i id accounts,
     nth_error inputList i = Some (JObject [(id, accounts)]) /\
     generateMerkleProofWithOrder (nth_error leaves i) (leaves :: upper) = Ok None /\
     generateProofForEveryUser inputList (leaves :: upper)
     = Throw (ProofNotFoundError id)).
Proof.
  intros Hwf. split.
  - intros leafHash Hnot. now apply generateMerkleProofWithOrder_absent.
  - intros Hsome. unfold generateProofForEveryUser.
    apply (everyUserLoop_not_found inputList leaves upper 0 [] Hwf Hsome).
Qed.

(** C6, at the entry [null]: the format check of hashList reads the keys of
    a [null] entry, which throws a TypeError, and not the FormatError of the
    other malformed entries. *)
Theorem hashList_null_entry_is_TypeError rest algorithm :
  isClientEntry JNull = false /\
  hashList (JNull :: rest) algorithm = Throw TypeError /\
  hashList (JNull :: rest) algorithm <> Throw FormatError.
Proof.
  assert (H : hashList (JNull :: rest) algorithm = Throw TypeError) by reflexivity.
  split; [reflexivity |]. split; [exact H |]. rewrite H. discriminate.
Qed.

(** The format check on every other malformed entry: the FormatError comes
    out whatever the serializer and the digest would do on the entries. *)
Lemma hashList_malformed inputList algorithm :
  ~ In JNull inputList ->
  Exists (fun client => isClientEntry client = false) inputList ->
  hashList inputList algorithm = Throw FormatError.
Proof.
  intros Hnull Hbad. unfold hashList.
  rewrite (checkFormat_malformed inputList Hnull Hbad). reflexivity.
Qed.

(** C7: computeMerkleTree throws the EmptyInputError on the empty list, and
    returns a tree on every non-empty list of well-formed, serializable
    entries. *)
Theorem computeMerkleTree_empty_or_succeeds inputList algorithm :
  (inputList = [] -> computeMerkleTree inputList algorithm = Throw EmptyInputError) /\
  (inputList <> [] -> wellFormed inputList ->
   exists tree, computeMerkleTree inputList algorithm = Ok tree).
Proof.
  split.
  - intros ->. reflexivity.
  - intros Hne Hwf.
    destruct (computeMerkleTree_total inputList algorithm Hne Hwf) as (hashes & _ & _ & H).
    eexists. exact H.
Qed.

(** C8: on a well-formed list hashList returns one leaf hash per entry, in
    the order of the entries; level 0 of the tree computeMerkleTree returns
    is as long as the list, and it is the result of hashList called with the
    default algorithm. *)
Theorem hashList_preserves_order_and_is_level0 inputList algorithm :
  wellFormed inputList ->
  exists hashes,
    hashList inputList algorithm = Ok hashes /\
    List.length hashes = List.length inputList /\
    (forall i client,
        nth_error inputList i = Some client ->
        exists json,
          JSON_stringify client = Ok json /\
          nth_error hashes i = Some (digestHex algorithm (TextEncoder_encode json))) /\
    (inputList <> [] ->
     forall treeAlgorithm,
     exists tree,
       computeMerkleTree inputList treeAlgorithm = Ok tree /\
       List.length (nth 0 tree []) = List.length inputList /\
       (algorithm = SHA_256 -> nth_error tree 0 = Some hashes)).
Proof.
  intros [Hwf Hser].
  destruct (hashList_total inputList algorithm Hwf Hser) as [hashes Hh].
  pose proof (hashList_inv _ _ _ Hh) as [_ Hall].
  exists hashes. split; [exact Hh |]. split; [symmetry; eapply Forall2_length; exact Hall |].
  split.
  - clear Hh Hwf Hser. intros i. revert i.
    induction Hall as [| item h rest hs Hitem _ IH]; intros i client Hi.
    + destruct i; discriminate.
    + destruct i as [| i].
      * injection Hi as <-. unfold hashItem in Hitem.
        destruct (JSON_stringify item) as [json | e]; [| discriminate].
        injection Hitem as <-. exists json. split; reflexivity.
      * apply (IH i client Hi).
  - intros Hne treeAlgorithm.
    destruct (computeMerkleTree_total inputList treeAlgorithm Hne (conj Hwf Hser))
      as (hashes' & Hh' & Hlen & Htree).
    eexists. split; [exact Htree |]. split; [exact Hlen |].
    intros ->. rewrite Hh in Hh'. injection Hh' as <-. reflexivity.
Qed.

(** C9: a level built from a level of length at least 2 is, padding
    included, strictly shorter than it, so that the loop of
    computeMerkleTree ends on a level of length 1 after fewer turns than
    there are entries: on every non-empty well-formed list the function
    returns a tree whose last level is a single hash. *)
Theorem computeMerkleTree_terminates :
  (forall algorithm hashes,
      (2 <= List.length hashes)%nat ->
      (List.length (buildLevel algorithm hashes) < List.length hashes)%nat) /\
  (forall inputList algorithm,
      inputList <> [] -> wellFormed inputList ->
      exists tree root,
        computeMerkleTree inputList algorithm = Ok tree /\
        last tree [] = [root] /\
        (List.length tree <= List.length inputList)%nat).
Proof.
  split.
  - intros algorithm hashes Hlen. apply buildLevel_shorter. lia.
  - intros inputList algorithm Hne Hwf.
    destruct (computeMerkleTree_total inputList algorithm Hne Hwf)
      as (hashes & _ & Hlen & Htree).
    assert (Hh : hashes <> []).
    { intros ->. destruct inputList; [congruence | discriminate]. }
    destruct (levelsAbove_last algorithm hashes Hh) as [root Hroot].
    exists (hashes :: levelsAbove algorithm hashes), root.
    split; [exact Htree |]. split; [exact Hroot |].
    pose proof (levelsAbove_count algorithm hashes Hh). cbn [List.length]. lia.
Qed.


(** X14: the round trip on every entry that has a sibling in level 0: all of
    them but the last entry of a list of odd length 3 or more. *)
Lemma roundtrip_paired inputList i client :
  wellFormed inputList ->
  nth_error inputList i = Some client ->
  (Nat.even (List.length inputList) = true \/ List.length inputList = 1%nat
   \/ S i < List.length inputList)%nat ->
  exists tree root leaf proof,
    computeMerkleTree inputList SHA_256 = Ok tree /\
    last tree [] = [root] /\
    hashList [client] SHA_256 = Ok [leaf] /\
    generateMerkleProofWithOrder (Some leaf) tree = Ok (Some proof) /\
    verifyMerkleProofWithOrder client root proof SHA_256 = Ok true.
Proof.
  intros Hwf Hi Hpaired.
  assert (Hne : inputList <> []) by (intros ->; destruct i; discriminate).
  destruct (computeMerkleTree_total inputList SHA_256 Hne Hwf) as (hashes & Hh & Hlen & Htree).
  assert (Hh' : hashes <> []) by (intros ->; destruct inputList; [congruence | discriminate]).
  destruct (levelsAbove_last SHA_256 hashes Hh') as [root Hroot].
  pose proof (hashList_inv _ _ _ Hh) as [Hentries Hall].
  assert (Hleaf : exists json leaf,
             JSON_stringify client = Ok json /\
             leaf = digestHex SHA_256 (TextEncoder_encode json) /\
             nth_error hashes i = Some leaf).
  { clear - Hall Hi. revert i Hi.
    induction Hall as [| item h rest hs Hitem _ IH]; intros i Hi.
    - destruct i; discriminate.
    - destruct i as [| i].
      + injection Hi as <-. unfold hashItem in Hitem.
        destruct (JSON_stringify item) as [json | e]; [| discriminate].
        injection Hitem as <-. exists json, (digestHex SHA_256 (TextEncoder_encode json)).
        repeat split.
      + apply (IH i Hi). }
  destruct Hleaf as (json & leaf & Hjson & Hleafeq & Hnth).
  assert (Hclient : isClientEntry client = true).
  { rewrite Forall_forall in Hentries. apply Hentries. eapply nth_error_In. exact Hi. }
  destruct (indexOf_from_spec hashes leaf 0) as [[Hnot _] | (first & Hfirst & Hlowest & _)].
  { exfalso. apply Hnot. eapply nth_error_In. exact Hnth. }
  assert (Hle : (first <= i)%nat).
  { destruct (Nat.le_gt_cases first i) as [H | H]; [exact H |].
    exfalso. exact (Hlowest i H Hnth). }
  assert (Hbound : (first < List.length hashes)%nat)
    by (apply nth_error_Some; congruence).
  exists (hashes :: levelsAbove SHA_256 hashes), root, leaf,
    (climb (hashes :: levelsAbove SHA_256 hashes) first).
  split; [exact Htree |]. split; [exact Hroot |]. split.
  - unfold hashList. cbn [checkFormat]. rewrite invalidFormat_not_null, Hclient
      by (intros ->; discriminate).
    cbn [negb bind hashItems]. unfold hashItem. rewrite Hjson. cbn [bind app].
    rewrite Hleafeq. reflexivity.
  - split; [apply generateMerkleProofWithOrder_first; assumption |].
    rewrite (verifyMerkleProofWithOrder_fold _ _ _ _ json Hjson). f_equal.
    apply String.eqb_eq. rewrite <- Hleafeq.
    replace leaf with (nth first hashes "")
      by (apply nth_error_nth; exact Hfirst).
    apply climb_reaches_root; [exact Hbound | | exact Hroot].
    rewrite Hlen.
    destruct Hpaired as [He | [H1 | Hs]].
    + destruct (Nat.even first) eqn:E; [| right; left; reflexivity].
      right. right. pose proof (even_double_div2 _ He). pose proof (even_double_div2 _ E).
      lia.
    + left. lia.
    + right. right. lia.
Qed.


(** Where the round trip stops, on every runtime: in a list of three entries
    whose third leaf hash differs from the first two, the proof of the third
    entry holds the single sibling [H(h1 ++ h2)], and the verifier compares
    [H(H(h1 ++ h2) ++ h3)] with the root [H(H(h1 ++ h2) ++ H(h3 ++ h3))]. *)
Lemma roundtrip_unpaired_three c1 c2 c3 h1 h2 h3 :
  hashList [c1; c2; c3] SHA_256 = Ok [h1; h2; h3] ->
  h3 <> h1 -> h3 <> h2 ->
  let h12 := digestHex SHA_256 (h1 ++ h2) in
  let h33 := digestHex SHA_256 (h3 ++ h3) in
  let root := digestHex SHA_256 (h12 ++ h33) in
  computeMerkleTree [c1; c2; c3] SHA_256 = Ok [[h1; h2; h3]; [h12; h33]; [root]] /\
  generateMerkleProofWithOrder (Some h3) [[h1; h2; h3]; [h12; h33]; [root]]
  = Ok (Some [{| hash := h12; isRight := false |}]) /\
  verifyMerkleProofWithOrder c3 root [{| hash := h12; isRight := false |}] SHA_256
  = Ok (digestHex SHA_256 (h12 ++ h3) =? root).
Proof.
  intros Hh H31 H32 h12 h33 root.
  assert (Hlevels : levelsAbove SHA_256 [h1; h2; h3] = [[h12; h33]; [root]]).
  { rewrite levelsAbove_step. cbn [List.length Nat.ltb Nat.leb].
    rewrite buildLevel_spec.
    change (nextLevelSpec SHA_256 [h1; h2; h3]) with [h12; h33].
    rewrite levelsAbove_step. cbn [List.length Nat.ltb Nat.leb].
    rewrite buildLevel_spec.
    change (nextLevelSpec SHA_256 [h12; h33]) with [root].
    rewrite levelsAbove_step. reflexivity. }
  split; [| split].
  - unfold computeMerkleTree. cbn [List.length Nat.eqb]. rewrite Hh. cbn [bind List.length Nat.eqb].
    rewrite growTree_app, Hlevels. reflexivity.
  - rewrite (generateMerkleProofWithOrder_first [h1; h2; h3] _ h3 2 eq_refl).
    + reflexivity.
    + intros [| [| m]] Hm; cbn; [congruence | congruence | lia].
  - pose proof (hashList_inv _ _ _ Hh) as [_ Hall].
    inversion Hall as [| ? ? ? ? _ Hall2]; subst.
    inversion Hall2 as [| ? ? ? ? _ Hall3]; subst.
    inversion Hall3 as [| ? ? ? ? Hitem _]; subst.
    unfold hashItem in Hitem.
    destruct (JSON_stringify c3) as [json | e] eqn:Hj; [| discriminate].
    injection Hitem as Hitem.
    rewrite (verifyMerkleProofWithOrder_fold _ _ _ _ json Hj). rewrite Hitem. reflexivity.
Qed.

End Properties.

(** * Further properties of the functions *)

Section Coverage.

Context {rt : Runtime}.

(** ** Lookup and batch generation *)

Lemma generateMerkleProofWithOrder_present leaves upper leafHash :
  In leafHash leaves ->
  exists first,
    nth_error leaves first = Some leafHash /\
    (forall m, (m < first)%nat -> nth_error leaves m <> Some leafHash) /\
    generateMerkleProofWithOrder (Some leafHash) (leaves :: upper)
    = Ok (Some (climb (leaves :: upper) first)).
Proof.
  intros Hin.
  destruct (indexOf_from_spec leaves leafHash 0) as [[Hnot _] | (n & Hn & Hfirst & _)].
  - contradiction.
  - exists n. split; [exact Hn |]. split; [exact Hfirst |].
    now apply generateMerkleProofWithOrder_first.
Qed.

Lemma everyUserLoop_ok (inputList : list Value) leaves upper i path :
  Forall (fun client => isClientEntry client = true) inputList ->
  (i + List.length inputList <= List.length leaves)%nat ->
  exists entries, everyUserLoop inputList (leaves :: upper) i path = Ok (path ++ entries).
Proof.
  intros Hwf. revert i path.
  induction Hwf as [| client rest Hc _ IH]; intros i path Hlen.
  - exists []. now rewrite app_nil_r.
  - destruct client as [| | | | | | [| [id accounts] [| q props]]]; try discriminate.
    cbn [List.length] in Hlen.
    cbn [everyUserLoop Object_keys map fst bind level0 nth_error].
    destruct (nth_error leaves i) as [leaf |] eqn:Hleaf;
      [| apply nth_error_None in Hleaf; lia].
    destruct (generateMerkleProofWithOrder_present leaves upper leaf
                (nth_error_In _ _ Hleaf)) as (first & _ & _ & Hgen).
    rewrite Hgen. cbn [bind].
    destruct (IH (i + 1)%nat (path ++ [(ToString (Some id), climb (leaves :: upper) first)])
                 ltac:(lia)) as [entries Hrest].
    exists ((ToString (Some id), climb (leaves :: upper) first) :: entries).
    rewrite Hrest, <- app_assoc. reflexivity.
Qed.

(** X1: single lookup finds a proof exactly for the hashes level 0 holds: the
    result is not-found if and only if the hash is absent from level 0, and
    the [undefined] key is never found. *)
Theorem lookup_found_iff_present leaves upper leafHash :
  (generateMerkleProofWithOrder (Some leafHash) (leaves :: upper) = Ok None
   <-> ~ In leafHash leaves) /\
  (In leafHash leaves <->
   exists proof,
     generateMerkleProofWithOrder (Some leafHash) (leaves :: upper) = Ok (Some proof)) /\
  generateMerkleProofWithOrder None (leaves :: upper) = Ok None.
Proof.
  split; [| split].
  - split.
    + intros Hnone Hin.
      destruct (generateMerkleProofWithOrder_present leaves upper leafHash Hin)
        as (first & _ & _ & Hgen).
      congruence.
    + apply generateMerkleProofWithOrder_absent.
  - split.
    + intros Hin.
      destruct (generateMerkleProofWithOrder_present leaves upper leafHash Hin)
        as (first & _ & _ & Hgen).
      eexists. exact Hgen.
    + intros [proof Hgen].
      destruct (in_dec string_dec leafHash leaves) as [Hin | Hnot]; [exact Hin |].
      rewrite (generateMerkleProofWithOrder_absent leaves upper leafHash Hnot) in Hgen.
      discriminate.
  - reflexivity.
Qed.

(** X2: on a list of client entries generateProofForEveryUser succeeds
    exactly when the list is no longer than level 0 of the tree; against an
    empty tree a non-empty list throws a TypeError.  The clients' contents
    are never compared with the leaves. *)
Theorem batch_succeeds_iff_within_level0 (inputList : list Value) merkleTree :
  Forall (fun client => isClientEntry client = true) inputList ->
  ((exists paths, generateProofForEveryUser inputList merkleTree = Ok paths)
   <-> (List.length inputList <= List.length (nth 0 merkleTree []))%nat) /\
  (merkleTree = [] -> inputList <> [] ->
   generateProofForEveryUser inputList merkleTree = Throw TypeError).
Proof.
  intros Hwf. split.
  - destruct merkleTree as [| leaves upper].
    + cbn [nth List.length]. split.
      * intros [paths Hp]. destruct Hwf as [| client rest Hc _]; [cbn; lia |].
        destruct client as [| | | | | | [| [id accounts] [| q props]]]; discriminate.
      * intros Hlen. destruct inputList; [| cbn in Hlen; lia].
        exists []. reflexivity.
    + cbn [nth]. split.
      * intros [paths Hp].
        destruct (Nat.le_gt_cases (List.length inputList) (List.length leaves))
          as [Hle | Hgt]; [exact Hle |].
        exfalso.
        destruct (nth_error inputList (List.length leaves)) as [client |] eqn:Hc;
          [| apply nth_error_None in Hc; lia].
        assert (Hnone : generateMerkleProofWithOrder
                          (nth_error leaves (0 + List.length leaves)) (leaves :: upper)
                        = Ok None).
        { replace (nth_error leaves (0 + List.length leaves)) with (@None string)
            by (symmetry; apply nth_error_None; lia).
          reflexivity. }
        destruct (everyUserLoop_not_found inputList leaves upper 0 [] Hwf
                    (ex_intro _ _ (ex_intro _ client (conj Hc Hnone))))
          as (k & id & accounts & _ & _ & Hthrow).
        unfold generateProofForEveryUser in Hp. congruence.
      * intros Hle.
        destruct (everyUserLoop_ok inputList leaves upper 0 [] Hwf ltac:(lia))
          as [entries He].
        exists entries. exact He.
  - intros -> Hne. destruct Hwf as [| client rest Hc _]; [congruence |].
    destruct client as [| | | | | | [| [id accounts] [| q props]]]; try discriminate.
    reflexivity.
Qed.

(** X3: on the tree computeMerkleTree built from it, the batch never fails:
    generateProofForEveryUser returns one path per client, in order, each
    under the client's identifier and equal to the single proof of the
    client's leaf hash. *)
Theorem batch_agrees_with_single_proofs (inputList : list Value) algorithm :
  inputList <> [] ->
  wellFormed inputList ->
  exists tree leaves paths,
    computeMerkleTree inputList algorithm = Ok tree /\
    hashList inputList SHA_256 = Ok leaves /\
    generateProofForEveryUser inputList tree = Ok paths /\
    List.length paths = List.length inputList /\
    forall i id accounts,
      nth_error inputList i = Some (JObject [(id, accounts)]) ->
      exists leaf proof,
        nth_error leaves i = Some leaf /\
        generateMerkleProofWithOrder (Some leaf) tree = Ok (Some proof) /\
        nth_error paths i = Some (id, proof).
Proof.
  intros Hne Hwf.
  destruct (computeMerkleTree_total inputList algorithm Hne Hwf)
    as (leaves & Hleaves & Hlen & Htree).
  destruct Hwf as [Hentries _].
  destruct (everyUserLoop_ok inputList leaves (levelsAbove algorithm leaves) 0 []
              Hentries ltac:(lia)) as [entries He].
  destruct (everyUserLoop_inv _ _ _ _ _ _ He) as (entries' & Heq & Hcount & Hall).
  cbn [app] in Heq. subst entries'.
  exists (leaves :: levelsAbove algorithm leaves), leaves, entries.
  split; [exact Htree |]. split; [exact Hleaves |]. split; [exact He |].
  split; [exact Hcount |].
  intros i id accounts Hi.
  destruct (Hall i _ Hi) as (keys & proof & Hkeys & Hgen & Hentry).
  cbn [Nat.add] in Hgen. cbn in Hkeys. injection Hkeys as <-.
  destruct (nth_error leaves i) as [leaf |] eqn:Hleaf.
  - exists leaf, proof. repeat split; assumption.
  - apply nth_error_None in Hleaf.
    assert (i < List.length inputList)%nat by (apply nth_error_Some; congruence). lia.
Qed.

(** ** Widths of the levels *)

Lemma chain_previous algorithm hashes k level :
  nth_error (hashes :: levelsAbove algorithm hashes) (S k) = Some level ->
  exists previous,
    nth_error (hashes :: levelsAbove algorithm hashes) k = Some previous /\
    (1 < List.length previous)%nat /\
    level = buildLevel algorithm previous.
Proof.
  revert hashes. induction k as [| k IH]; intros hashes Hk.
  - cbn [nth_error] in Hk. rewrite levelsAbove_step in Hk.
    destruct (Nat.ltb_spec 1 (List.length hashes)) as [Hlt | Hge]; [| discriminate].
    cbn [nth_error] in Hk. injection Hk as <-.
    exists hashes. repeat split. exact Hlt.
  - cbn [nth_error] in Hk. rewrite levelsAbove_step in Hk.
    destruct (Nat.ltb_spec 1 (List.length hashes)) as [Hlt | Hge]; [| discriminate].
    destruct (IH _ Hk) as (previous & Hp & Hlen & Heq).
    exists previous. split; [| split; assumption].
    cbn [nth_error]. rewrite levelsAbove_step.
    apply Nat.ltb_lt in Hlt. rewrite Hlt. exact Hp.
Qed.

(** X4: in the tree computeMerkleTree returns every level is strictly
    shorter than the one below it, and every level between the leaves and
    the root has an even length: only level 0 can hold a node without a
    sibling. *)
Theorem upper_levels_shrink_and_are_even (inputList : list Value) algorithm tree k level :
  computeMerkleTree inputList algorithm = Ok tree ->
  nth_error tree (S k) = Some level ->
  (exists previous,
      nth_error tree k = Some previous /\
      (List.length level < List.length previous)%nat) /\
  ((1 < List.length level)%nat -> Nat.even (List.length level) = true).
Proof.
  intros Htree Hk.
  destruct (computeMerkleTree_inv _ _ _ Htree) as (hashes & _ & _ & ->).
  destruct (chain_previous algorithm hashes k level Hk) as (previous & Hp & Hlen & ->).
  split.
  - exists previous. split; [exact Hp |]. now apply buildLevel_shorter.
  - intros Hwide.
    destruct (Nat.le_gt_cases (List.length previous) 2) as [H2 | H2].
    + exfalso. pose proof (buildLevel_length algorithm previous) as Hl. cbv zeta in Hl.
      replace (2 <? List.length previous)%nat with false in Hl
        by (symmetry; apply Nat.ltb_ge; exact H2).
      rewrite andb_false_r in Hl.
      assert (List.length previous = 2)%nat by lia.
      replace (List.length previous) with 2%nat in Hl. cbn in Hl. lia.
    + now apply buildLevel_even.
Qed.

(** ** Proofs along the tree *)

Lemma climb_length_le levels index :
  (List.length (climb levels index) <= List.length levels - 1)%nat.
Proof.
  revert index. induction levels as [| level upper IH]; intros index; [cbn; lia |].
  destruct upper as [| above upper]; [cbn; lia |].
  change (climb (level :: above :: upper) index)
    with ((let sibling := if Nat.even index then S index else pred index in
           if (sibling <? List.length level)%nat
           then [{| hash := nth sibling level ""; isRight := Nat.even index |}]
           else [])
          ++ climb (above :: upper) (Nat.div2 index)).
  cbv zeta. rewrite length_app. specialize (IH (Nat.div2 index)).
  cbn [List.length] in IH |- *.
  destruct (_ <? _)%nat; cbn [List.length]; lia.
Qed.

Lemma climb_length_paired algorithm hashes idx :
  (idx < List.length hashes)%nat ->
  (List.length hashes <= 1 \/ Nat.even idx = false \/ S idx < List.length hashes)%nat ->
  List.length (climb (hashes :: levelsAbove algorithm hashes) idx)
  = List.length (levelsAbove algorithm hashes).
Proof.
  remember (List.length hashes) as n eqn:Hn. revert hashes idx Hn.
  induction n as [n IH] using lt_wf_ind. intros hashes idx -> Hidx Hsib.
  rewrite levelsAbove_step.
  destruct (Nat.ltb_spec 1 (List.length hashes)) as [Hlt | Hge]; [| reflexivity].
  set (next := buildLevel algorithm hashes) in *.
  pose proof (buildLevel_shorter algorithm hashes Hlt) as Hs. fold next in Hs.
  pose proof (buildLevel_length algorithm hashes) as Hl. fold next in Hl.
  cbv zeta in Hl.
  pose proof (div2_bounds (S (List.length hashes))) as Hb.
  pose proof (div2_bounds idx) as Hi.
  assert (Hnext : (Nat.div2 idx < List.length next)%nat).
  { rewrite Hl. destruct (Nat.odd _ && _); lia. }
  assert (Hcond : (List.length next <= 1 \/ Nat.even (Nat.div2 idx) = false
                   \/ S (Nat.div2 idx) < List.length next)%nat).
  { destruct (Nat.le_gt_cases (List.length hashes) 2) as [H2 | H2].
    - left. rewrite Hl.
      replace (2 <? List.length hashes)%nat with false
        by (symmetry; apply Nat.ltb_ge; exact H2).
      rewrite andb_false_r. lia.
    - pose proof (buildLevel_even algorithm hashes H2) as He. fold next in He.
      destruct (Nat.even (Nat.div2 idx)) eqn:E; [| right; left; reflexivity].
      right. right.
      pose proof (even_double_div2 _ He). pose proof (even_double_div2 _ E). lia. }
  pose proof (IH _ Hs next (Nat.div2 idx) eq_refl Hnext Hcond) as Hrec.
  rewrite levelsAbove_step in Hrec.
  destruct (Nat.ltb_spec 1 (List.length next)) as [Hn1 | Hn1].
  - change (climb (hashes :: next :: levelsAbove algorithm next) idx)
      with ((let sibling := if Nat.even idx then S idx else pred idx in
             if (sibling <? List.length hashes)%nat
             then [{| hash := nth sibling hashes ""; isRight := Nat.even idx |}]
             else [])
            ++ climb (next :: levelsAbove algorithm next) (Nat.div2 idx)).
    cbv zeta. rewrite length_app.
    rewrite (levelsAbove_step algorithm next).
    apply Nat.ltb_lt in Hn1. rewrite Hn1. rewrite Hrec.
    assert (Hin : ((if Nat.even idx then S idx else pred idx) <? List.length hashes)%nat
                  = true).
    { apply Nat.ltb_lt. destruct (Nat.even idx) eqn:E.
      - destruct Hsib as [H | [H | H]]; [lia | discriminate | exact H].
      - lia. }
    rewrite Hin. reflexivity.
  - rewrite (levelsAbove_step algorithm next).
    replace (1 <? List.length next)%nat with false
      by (symmetry; apply Nat.ltb_ge; exact Hn1).
    change (climb [hashes; next] idx)
      with ((let sibling := if Nat.even idx then S idx else pred idx in
             if (sibling <? List.length hashes)%nat
             then [{| hash := nth sibling hashes ""; isRight := Nat.even idx |}]
             else [])
            ++ []).
    cbv zeta. rewrite app_nil_r.
    assert (Hin : ((if Nat.even idx then S idx else pred idx) <? List.length hashes)%nat
                  = true).
    { apply Nat.ltb_lt. destruct (Nat.even idx) eqn:E.
      - destruct Hsib as [H | [H | H]]; [lia | discriminate | exact H].
      - lia. }
    rewrite Hin. reflexivity.
Qed.

(** X5: a generated proof never has more entries than the tree has levels
    above the leaves; in the tree built from a client list the proof of an
    entry that has a sibling in level 0 has exactly ceil(log2 N) entries. *)
Theorem proof_length_is_logarithmic :
  (forall leafHash merkleTree proof,
      generateMerkleProofWithOrder leafHash merkleTree = Ok (Some proof) ->
      (List.length proof <= List.length merkleTree - 1)%nat) /\
  (forall (inputList : list Value) i client,
      wellFormed inputList ->
      nth_error inputList i = Some client ->
      (Nat.even (List.length inputList) = true \/ List.length inputList = 1%nat
       \/ S i < List.length inputList)%nat ->
      exists tree leaf proof,
        computeMerkleTree inputList SHA_256 = Ok tree /\
        hashList [client] SHA_256 = Ok [leaf] /\
        generateMerkleProofWithOrder (Some leaf) tree = Ok (Some proof) /\
        List.length proof = Nat.log2_up (List.length inputList)).
Proof.
  split; [| intros inputList i client Hwf Hi Hpaired].
  - intros leafHash merkleTree proof Hgen.
    unfold generateMerkleProofWithOrder in Hgen.
    destruct merkleTree as [| leaves upper]; [discriminate |].
    cbn [level0 nth_error bind] in Hgen.
    destruct leafHash as [h |]; [| discriminate].
    cbn [indexOf] in Hgen.
    destruct (indexOf_from_spec leaves h 0) as [[_ Heq] | (n & _ & _ & Heq)];
      rewrite Heq in Hgen.
    + discriminate.
    + cbn [Z.add] in Hgen.
      destruct (Z.of_nat n =? -1)%Z; [discriminate |].
      injection Hgen as <-. rewrite proofLoop_climb. cbn [app skipn].
      apply climb_length_le.
  - assert (Hne : inputList <> []) by (intros ->; destruct i; discriminate).
    destruct (computeMerkleTree_total inputList SHA_256 Hne Hwf)
      as (hashes & Hh & Hlen & Htree).
    assert (Hh' : hashes <> [])
      by (intros ->; destruct inputList; [congruence | discriminate]).
    pose proof (hashList_inv _ _ _ Hh) as [Hentries Hall].
    assert (Hitem : exists leaf, hashItem SHA_256 client = Ok leaf /\
                                 nth_error hashes i = Some leaf).
    { clear - Hall Hi. revert i Hi.
      induction Hall as [| item h rest hs Hitem _ IH]; intros i Hi.
      - destruct i; discriminate.
      - destruct i as [| i].
        + injection Hi as <-. exists h. split; [exact Hitem | reflexivity].
        + apply (IH i Hi). }
    destruct Hitem as (leaf & Hitem & Hnth).
    destruct (generateMerkleProofWithOrder_present hashes (levelsAbove SHA_256 hashes) leaf
                (nth_error_In _ _ Hnth)) as (first & Hfirst & Hlowest & Hgen).
    assert (Hle : (first <= i)%nat).
    { destruct (Nat.le_gt_cases first i) as [H | H]; [exact H |].
      exfalso. exact (Hlowest i H Hnth). }
    assert (Hbound : (first < List.length hashes)%nat)
      by (apply nth_error_Some; congruence).
    exists (hashes :: levelsAbove SHA_256 hashes), leaf,
      (climb (hashes :: levelsAbove SHA_256 hashes) first).
    split; [exact Htree |]. split; [| split; [exact Hgen |]].
    + assert (Hclient : isClientEntry client = true).
      { rewrite Forall_forall in Hentries. apply Hentries. eapply nth_error_In. exact Hi. }
      unfold hashList. cbn [checkFormat].
      rewrite invalidFormat_not_null, Hclient by (intros ->; discriminate).
      cbn [negb bind hashItems]. rewrite Hitem. reflexivity.
    + rewrite climb_length_paired.
      * pose proof (depth_log2_up SHA_256 hashes Hh') as Hd.
        cbn [List.length] in Hd. rewrite Hlen in Hd. lia.
      * exact Hbound.
      * rewrite Hlen. destruct Hpaired as [He | [H1 | Hs]].
        -- destruct (Nat.even first) eqn:E; [| right; left; reflexivity].
           right. right.
           pose proof (even_double_div2 _ He). pose proof (even_double_div2 _ E). lia.
        -- left. lia.
        -- right. right. lia.
Qed.

(** ** Round trips *)

Lemma Forall2_nth_error {A B : Type} (P : A -> B -> Prop) l hs i a b :
  Forall2 P l hs ->
  nth_error l i = Some a ->
  nth_error hs i = Some b ->
  P a b.
Proof.
  intros Hall. revert i. induction Hall as [| x y l' hs' Hxy _ IH]; intros i Ha Hb.
  - destruct i; discriminate.
  - destruct i as [| i].
    + injection Ha as <-. injection Hb as <-. exact Hxy.
    + apply (IH i Ha Hb).
Qed.

Lemma paired_entry_verifies (inputList : list Value) hashes i client leaf proof root :
  hashList inputList SHA_256 = Ok hashes ->
  nth_error inputList i = Some client ->
  nth_error hashes i = Some leaf ->
  (Nat.even (List.length inputList) = true \/ List.length inputList = 1%nat
   \/ S i < List.length inputList)%nat ->
  last (hashes :: levelsAbove SHA_256 hashes) [] = [root] ->
  generateMerkleProofWithOrder (Some leaf) (hashes :: levelsAbove SHA_256 hashes)
  = Ok (Some proof) ->
  verifyMerkleProofWithOrder client root proof SHA_256 = Ok true.
Proof.
  intros Hh Hi Hnth Hpaired Hroot Hgen.
  pose proof (hashList_inv _ _ _ Hh) as [_ Hall].
  pose proof (Forall2_length Hall) as Hlen.
  pose proof (Forall2_nth_error _ _ _ _ _ _ Hall Hi Hnth) as Hitem.
  unfold hashItem in Hitem.
  destruct (JSON_stringify client) as [json | e] eqn:Hj; [| discriminate].
  injection Hitem as Hleaf.
  destruct (generateMerkleProofWithOrder_present hashes (levelsAbove SHA_256 hashes) leaf
              (nth_error_In _ _ Hnth)) as (first & Hfirst & Hlowest & Hgen').
  rewrite Hgen in Hgen'. injection Hgen' as ->.
  assert (Hle : (first <= i)%nat).
  { destruct (Nat.le_gt_cases first i) as [H | H]; [exact H |].
    exfalso. exact (Hlowest i H Hnth). }
  assert (Hbound : (first < List.length hashes)%nat)
    by (apply nth_error_Some; congruence).
  rewrite (verifyMerkleProofWithOrder_fold _ _ _ _ json Hj). f_equal.
  apply String.eqb_eq. rewrite Hleaf.
  replace leaf with (nth first hashes "") by (apply nth_error_nth; exact Hfirst).
  apply climb_reaches_root; [exact Hbound | | exact Hroot].
  rewrite <- Hlen.
  destruct Hpaired as [He | [H1 | Hs]].
  - destruct (Nat.even first) eqn:E; [| right; left; reflexivity].
    right. right. pose proof (even_double_div2 _ He). pose proof (even_double_div2 _ E).
    lia.
  - left. lia.
  - right. right. lia.
Qed.

(** X6: build the tree, generate every path, verify: for every client that
    has a sibling in level 0 (all of them when the list has an even length or
    a single entry, all but the last otherwise) the path the batch returns
    for the client verifies against the root. *)
Theorem batch_paths_verify (inputList : list Value) i id accounts :
  wellFormed inputList ->
  nth_error inputList i = Some (JObject [(id, accounts)]) ->
  (Nat.even (List.length inputList) = true \/ List.length inputList = 1%nat
   \/ S i < List.length inputList)%nat ->
  exists tree root paths proof,
    computeMerkleTree inputList SHA_256 = Ok tree /\
    last tree [] = [root] /\
    generateProofForEveryUser inputList tree = Ok paths /\
    nth_error paths i = Some (id, proof) /\
    verifyMerkleProofWithOrder (JObject [(id, accounts)]) root proof SHA_256 = Ok true.
Proof.
  intros Hwf Hi Hpaired.
  assert (Hne : inputList <> []) by (intros ->; destruct i; discriminate).
  destruct (computeMerkleTree_total inputList SHA_256 Hne Hwf)
    as (hashes & Hh & Hlen & Htree).
  assert (Hh' : hashes <> [])
    by (intros ->; destruct inputList; [congruence | discriminate]).
  destruct (levelsAbove_last SHA_256 hashes Hh') as [root Hroot].
  destruct Hwf as [Hentries _].
  destruct (everyUserLoop_ok inputList hashes (levelsAbove SHA_256 hashes) 0 []
              Hentries ltac:(lia)) as [entries He].
  destruct (everyUserLoop_inv _ _ _ _ _ _ He) as (entries' & Heq & _ & Hall).
  cbn [app] in Heq. subst entries'.
  destruct (Hall i _ Hi) as (keys & proof & Hkeys & Hgen & Hentry).
  cbn [Nat.add] in Hgen. cbn in Hkeys. injection Hkeys as <-.
  destruct (nth_error hashes i) as [leaf |] eqn:Hleaf.
  2:{ apply nth_error_None in Hleaf.
      assert (i < List.length inputList)%nat by (apply nth_error_Some; congruence). lia. }
  exists (hashes :: levelsAbove SHA_256 hashes), root, entries, proof.
  split; [exact Htree |]. split; [exact Hroot |]. split; [exact He |].
  split; [exact Hentry |].
  exact (paired_entry_verifies inputList hashes i _ leaf proof root
           Hh Hi Hleaf Hpaired Hroot Hgen).
Qed.

(** X7: the last entry of a list of odd length 3 or more whose leaf hash
    occurs nowhere earlier gets the proof of its parent node: the proof has
    one entry fewer than the tree has levels above the leaves, it folds the
    parent hash [H(leaf ++ leaf)] to the root, and the verifier returns the
    comparison of the fold from the leaf hash itself with the root. *)
Theorem unpaired_last_leaf_gets_parent_proof (inputList : list Value) leaves client leaf :
  hashList inputList SHA_256 = Ok leaves ->
  Nat.odd (List.length inputList) = true ->
  (3 <= List.length inputList)%nat ->
  nth_error inputList (List.length inputList - 1) = Some client ->
  nth_error leaves (List.length inputList - 1) = Some leaf ->
  (forall m, (m < List.length inputList - 1)%nat -> nth_error leaves m <> Some leaf) ->
  exists tree root proof,
    computeMerkleTree inputList SHA_256 = Ok tree /\
    last tree [] = [root] /\
    generateMerkleProofWithOrder (Some leaf) tree = Ok (Some proof) /\
    S (S (List.length proof)) = List.length tree /\
    foldProof SHA_256 (digestHex SHA_256 (leaf ++ leaf)) proof = root /\
    verifyMerkleProofWithOrder client root proof SHA_256
    = Ok (foldProof SHA_256 leaf proof =? root).
Proof.
  intros Hh Hodd H3 Hclient Hleaf Hlowest.
  pose proof (hashList_inv _ _ _ Hh) as [Hentries Hall].
  pose proof (Forall2_length Hall) as Hlen.
  assert (Hne : inputList <> []) by (intros ->; cbn in H3; lia).
  assert (Hser : Forall serializable inputList).
  { clear - Hall. induction Hall as [| item h rest hs Hitem _ IH]; constructor; [| exact IH].
    unfold hashItem in Hitem. destruct (JSON_stringify item) as [json | e] eqn:Hj;
      [| discriminate]. exists json. exact Hj. }
  destruct (computeMerkleTree_total inputList SHA_256 Hne (conj Hentries Hser))
    as (hashes & Hh2 & _ & Htree).
  rewrite Hh in Hh2. injection Hh2 as <-.
  assert (Hh' : leaves <> []) by (intros ->; cbn in Hlen; lia).
  destruct (levelsAbove_last SHA_256 leaves Hh') as [root Hroot].
  set (n := List.length inputList) in *.
  assert (Heven : Nat.even (n - 1) = true).
  { pose proof Hodd as Ho. apply Nat.odd_spec in Ho. destruct Ho as [half Hhalf].
    apply Nat.even_spec. exists half. lia. }
  pose proof (even_double_div2 _ Heven) as Hdouble.
  pose proof (generateMerkleProofWithOrder_first leaves (levelsAbove SHA_256 leaves)
                leaf (n - 1) Hleaf Hlowest) as Hgen.
  set (next := buildLevel SHA_256 leaves).
  assert (Hlt : (1 < List.length leaves)%nat) by lia.
  assert (Hlevels : levelsAbove SHA_256 leaves = next :: levelsAbove SHA_256 next).
  { rewrite levelsAbove_step. apply Nat.ltb_lt in Hlt. rewrite Hlt. reflexivity. }
  assert (Hnexteven : Nat.even (List.length next) = true)
    by (apply buildLevel_even; lia).
  pose proof (buildLevel_length SHA_256 leaves) as Hl. fold next in Hl. cbv zeta in Hl.
  pose proof (div2_bounds (S (List.length leaves))) as Hb.
  assert (Hhalf : (Nat.div2 (n - 1) < Nat.div2 (S (List.length leaves)))%nat) by lia.
  assert (Hnext : (Nat.div2 (n - 1) < List.length next)%nat).
  { rewrite Hl. destruct (Nat.odd _ && _); lia. }
  assert (Hcond : (List.length next <= 1 \/ Nat.even (Nat.div2 (n - 1)) = false
                   \/ S (Nat.div2 (n - 1)) < List.length next)%nat).
  { destruct (Nat.even (Nat.div2 (n - 1))) eqn:E; [| right; left; reflexivity].
    right. right.
    pose proof (even_double_div2 _ Hnexteven). pose proof (even_double_div2 _ E). lia. }
  assert (Hclimb : climb (leaves :: levelsAbove SHA_256 leaves) (n - 1)
                   = climb (next :: levelsAbove SHA_256 next) (Nat.div2 (n - 1))).
  { rewrite Hlevels.
    change (climb (leaves :: next :: levelsAbove SHA_256 next) (n - 1))
      with ((let sibling := if Nat.even (n - 1) then S (n - 1) else pred (n - 1) in
             if (sibling <? List.length leaves)%nat
             then [{| hash := nth sibling leaves ""; isRight := Nat.even (n - 1) |}]
             else [])
            ++ climb (next :: levelsAbove SHA_256 next) (Nat.div2 (n - 1))).
    cbv zeta. rewrite Heven.
    replace (S (n - 1) <? List.length leaves)%nat with false
      by (symmetry; apply Nat.ltb_ge; lia).
    reflexivity. }
  assert (Hparent : nth (Nat.div2 (n - 1)) next "" = digestHex SHA_256 (leaf ++ leaf)).
  { unfold next. rewrite buildLevel_nth by exact Hhalf. unfold pairAt.
    rewrite <- Hdouble.
    replace (n - 1 + 1 <? List.length leaves)%nat with false
      by (symmetry; apply Nat.ltb_ge; lia).
    rewrite (nth_error_nth _ _ _ Hleaf). reflexivity. }
  assert (Hroot' : last (next :: levelsAbove SHA_256 next) [] = [root]).
  { rewrite Hlevels in Hroot. exact Hroot. }
  exists (leaves :: levelsAbove SHA_256 leaves), root,
    (climb (leaves :: levelsAbove SHA_256 leaves) (n - 1)).
  split; [exact Htree |]. split; [exact Hroot |]. split; [exact Hgen |].
  split; [| split].
  - rewrite Hclimb, climb_length_paired by assumption.
    rewrite Hlevels. reflexivity.
  - rewrite Hclimb, <- Hparent.
    apply climb_reaches_root; assumption.
  - pose proof (Forall2_nth_error _ _ _ _ _ _ Hall Hclient Hleaf) as Hitem.
    unfold hashItem in Hitem.
    destruct (JSON_stringify client) as [json | e] eqn:Hj; [| discriminate].
    injection Hitem as Hitem.
    rewrite (verifyMerkleProofWithOrder_fold _ _ _ _ json Hj), Hitem. reflexivity.
Qed.

(** ** The leaf hasher, entry by entry *)

Lemma hashItems_Forall2 algorithm (inputList : list Value) hashes hashedList :
  Forall2 (fun item h => hashItem algorithm item = Ok h) inputList hashes ->
  hashItems algorithm inputList hashedList = Ok (hashedList ++ hashes).
Proof.
  intros Hall. revert hashedList.
  induction Hall as [| item h rest hs Hitem _ IH]; intros hashedList.
  - cbn. now rewrite app_nil_r.
  - cbn [hashItems]. rewrite Hitem. cbn [bind]. rewrite IH, <- app_assoc. reflexivity.
Qed.

Lemma hashList_iff (inputList : list Value) algorithm hashes :
  hashList inputList algorithm = Ok hashes <->
  Forall (fun client => isClientEntry client = true) inputList /\
  Forall2 (fun item h => hashItem algorithm item = Ok h) inputList hashes.
Proof.
  split; [apply hashList_inv |].
  intros [Hwf Hall]. unfold hashList.
  rewrite (checkFormat_entries _ Hwf). cbn [bind].
  apply (hashItems_Forall2 algorithm inputList hashes [] Hall).
Qed.

(** X8: hashList works entry by entry: the hashes of a concatenation are the
    hashes of its parts, one after the other, and the hash at index [i] of a
    list is the one hashList returns for the entry [i] alone. *)
Theorem hashList_is_entrywise (front back : list Value) algorithm :
  (forall hashes,
      hashList (front ++ back) algorithm = Ok hashes <->
      exists hs1 hs2,
        hashes = hs1 ++ hs2 /\
        hashList front algorithm = Ok hs1 /\
        hashList back algorithm = Ok hs2) /\
  (forall hashes i client leaf,
      hashList front algorithm = Ok hashes ->
      nth_error front i = Some client ->
      nth_error hashes i = Some leaf ->
      hashList [client] algorithm = Ok [leaf]).
Proof.
  split.
  - intros hashes. split.
    + intros H. apply hashList_iff in H. destruct H as [Hwf Hall].
      apply Forall_app in Hwf. destruct Hwf as [Hwf1 Hwf2].
      apply Forall2_app_inv_l in Hall. destruct Hall as (hs1 & hs2 & H1 & H2 & ->).
      exists hs1, hs2. split; [reflexivity |].
      split; apply hashList_iff; split; assumption.
    + intros (hs1 & hs2 & -> & H1 & H2).
      apply hashList_iff in H1. apply hashList_iff in H2.
      destruct H1 as [Hwf1 Hall1]. destruct H2 as [Hwf2 Hall2].
      apply hashList_iff. split.
      * apply Forall_app. split; assumption.
      * apply Forall2_app; assumption.
  - intros hashes i client leaf H Hi Hleaf.
    apply hashList_iff in H. destruct H as [Hwf Hall].
    apply hashList_iff. split.
    + constructor; [| constructor].
      rewrite Forall_forall in Hwf. apply Hwf. eapply nth_error_In. exact Hi.
    + constructor; [| constructor].
      exact (Forall2_nth_error _ _ _ _ _ _ Hall Hi Hleaf).
Qed.

(** ** Errors *)

(** X9: a malformed entry that is not [null] makes hashList, and
    computeMerkleTree with it, throw the format error, whatever the
    serializer would do on the entries before it: the format of the whole
    list is checked before the first entry is serialized. *)
Theorem format_error_comes_first (inputList : list Value) algorithm :
  ~ In JNull inputList ->
  Exists (fun client => isClientEntry client = false) inputList ->
  hashList inputList algorithm = Throw FormatError /\
  computeMerkleTree inputList algorithm = Throw FormatError.
Proof.
  intros Hnull Hbad. split.
  - unfold hashList. rewrite (checkFormat_malformed inputList Hnull Hbad). reflexivity.
  - unfold computeMerkleTree, hashList.
    destruct inputList as [| client rest]; [inversion Hbad |].
    cbn [List.length Nat.eqb].
    rewrite (checkFormat_malformed (client :: rest) Hnull Hbad). reflexivity.
Qed.

(** X10: in a list of client entries, the error JSON.stringify throws on the
    first entry it cannot serialize is the error of hashList and of
    computeMerkleTree; verifyMerkleProofWithOrder throws it as well, for
    every root and proof. *)
Theorem serialization_error_propagates (front back : list Value) bad e algorithm :
  Forall (fun client => isClientEntry client = true) (front ++ bad :: back) ->
  Forall serializable front ->
  JSON_stringify bad = Throw e ->
  hashList (front ++ bad :: back) algorithm = Throw e /\
  computeMerkleTree (front ++ bad :: back) algorithm = Throw e /\
  (forall merkleRoot proof,
      verifyMerkleProofWithOrder bad merkleRoot proof algorithm = Throw e).
Proof.
  intros Hwf Hser Hbad.
  assert (Hitems : forall alg hashedList,
             hashItems alg (front ++ bad :: back) hashedList = Throw e).
  { intros alg. induction Hser as [| item rest [json Hj] _ IH]; intros hashedList.
    - cbn [app hashItems]. unfold hashItem. rewrite Hbad. reflexivity.
    - cbn [app hashItems]. unfold hashItem at 1. rewrite Hj. cbn [bind].
      apply IH. inversion Hwf; assumption. }
  assert (Hlist : forall alg, hashList (front ++ bad :: back) alg = Throw e).
  { intros alg. unfold hashList. rewrite (checkFormat_entries _ Hwf). cbn [bind].
    apply Hitems. }
  split; [apply Hlist |]. split.
  - unfold computeMerkleTree. rewrite Hlist.
    destruct (List.length (front ++ bad :: back) =? 0)%nat eqn:E; [| reflexivity].
    apply Nat.eqb_eq in E. rewrite length_app in E. cbn in E. lia.
  - intros merkleRoot proof. unfold verifyMerkleProofWithOrder. rewrite Hbad. reflexivity.
Qed.

End Coverage.

(** * The generator and the entry point *)

(** ** Decimal writing *)

Lemma string_append_assoc (a b c : string) : ((a ++ b) ++ c = a ++ (b ++ c))%string.
Proof.
  induction a as [| x a IH]; [reflexivity |].
  cbn [String.append]. now rewrite IH.
Qed.

Lemma digits_app fuel n acc : digits fuel n acc = (digits fuel n "" ++ acc)%string.
Proof.
  revert n acc. induction fuel as [| fuel IH]; intros n acc; [reflexivity |].
  cbn [digits]. destruct (n / 10 =? 0)%nat; [reflexivity |].
  rewrite (IH (n / 10)%nat (String _ acc)), (IH (n / 10)%nat (String _ "")).
  rewrite string_append_assoc. reflexivity.
Qed.

Lemma digitsValue_app_last s c v :
  digitsValue (s ++ String c "") v = (10 * digitsValue s v + (nat_of_ascii c - 48))%nat.
Proof.
  revert v. induction s as [| d s IH]; intros v; [reflexivity |].
  cbn [String.append digitsValue]. apply IH.
Qed.

Lemma digitsValue_digits fuel n :
  (n < fuel)%nat -> digitsValue (digits fuel n "") 0 = n.
Proof.
  revert n. induction fuel as [| fuel IH]; intros n Hn; [lia |].
  cbn [digits].
  assert (Hdigit : (nat_of_ascii (ascii_of_nat (48 + n mod 10)) - 48 = n mod 10)%nat).
  { pose proof (Nat.mod_upper_bound n 10 ltac:(lia)).
    rewrite nat_ascii_embedding by lia. lia. }
  pose proof (Nat.div_mod_eq n 10) as Hdm.
  destruct (Nat.eqb_spec (n / 10) 0) as [E | E].
  - cbn [digitsValue]. rewrite Hdigit. lia.
  - rewrite digits_app, digitsValue_app_last, Hdigit.
    rewrite IH by (pose proof (Nat.div_lt n 10); lia). lia.
Qed.

Lemma decimal_injective n m : decimal n = decimal m -> n = m.
Proof.
  intros H. unfold decimal in H.
  rewrite <- (digitsValue_digits (S n) n), <- (digitsValue_digits (S m) m) by lia.
  now rewrite H.
Qed.

Section EntryPointProperties.

Context {rt : Runtime} {rnd : Random}.

Lemma accountsLoop_step numAccounts j accounts seed :
  accountsLoop numAccounts j accounts seed =
  if (Z.of_nat j <? numAccounts)%Z
  then
    let accountId := ("Token " ++ decimal (j + 1))%string in
    let draw := Math_random seed in
    let accountTokens := tokensOf (fst draw) in
    accountsLoop numAccounts (j + 1)
                 (accounts ++ [JArray [JString accountId; JNumber accountTokens]])
                 (snd draw)
  else (accounts, seed).
Proof.
  rewrite accountsLoop_equation_1.
  destruct (Z_lt_dec (Z.of_nat j) numAccounts) as [Hlt | Hge];
    cbn [accountsLoop_unfold_clause_1].
  - apply Z.ltb_lt in Hlt. rewrite Hlt. reflexivity.
  - apply Z.ltb_nlt in Hge. rewrite Hge. reflexivity.
Qed.

Lemma clientsLoop_step length i clientList seed :
  clientsLoop length i clientList seed =
  if (Z.of_nat i <? length)%Z
  then
    let clientId := ("Client " ++ decimal (i + 1))%string in
    let draw := Math_random seed in
    let numAccounts := (floorOfProduct (fst draw) 10 + 1)%Z in
    let filled := accountsLoop numAccounts 0 [] (snd draw) in
    let clientData := JObject [(clientId, JArray (fst filled))] in
    clientsLoop length (i + 1) (clientList ++ [clientData]) (snd filled)
  else (clientList, seed).
Proof.
  rewrite clientsLoop_equation_1.
  destruct (Z_lt_dec (Z.of_nat i) length) as [Hlt | Hge];
    cbn [clientsLoop_unfold_clause_1].
  - apply Z.ltb_lt in Hlt. rewrite Hlt. reflexivity.
  - apply Z.ltb_nlt in Hge. rewrite Hge. reflexivity.
Qed.

Lemma accountsLoop_spec numAccounts j accounts seed :
  exists added,
    fst (accountsLoop numAccounts j accounts seed) = accounts ++ added /\
    List.length added = Z.to_nat (numAccounts - Z.of_nat j) /\
    forall k account,
      nth_error added k = Some account ->
      exists amount,
        account = JArray [JString ("Token " ++ decimal (j + k + 1)); JNumber amount].
Proof.
  remember (Z.to_nat (numAccounts - Z.of_nat j)) as m eqn:Hm.
  revert j accounts seed Hm.
  induction m as [m IH] using lt_wf_ind. intros j accounts seed ->.
  rewrite accountsLoop_step.
  destruct (Z.ltb_spec (Z.of_nat j) numAccounts) as [Hlt | Hge].
  - cbv zeta.
    destruct (IH (Z.to_nat (numAccounts - Z.of_nat (j + 1))) ltac:(lia) (j + 1)%nat
                 (accounts ++ [JArray [JString ("Token " ++ decimal (j + 1));
                                       JNumber (tokensOf (fst (Math_random seed)))]])
                 (snd (Math_random seed)) eq_refl)
      as (added & Heq & Hlen & Hshape).
    exists (JArray [JString ("Token " ++ decimal (j + 1));
                    JNumber (tokensOf (fst (Math_random seed)))] :: added).
    split; [rewrite Heq, <- app_assoc; reflexivity |].
    split; [cbn [List.length]; rewrite Hlen; lia |].
    intros [| k] account Hk.
    + injection Hk as <-. rewrite Nat.add_0_r. eexists. reflexivity.
    + cbn [nth_error] in Hk. destruct (Hshape k account Hk) as [amount ->].
      exists amount. replace (j + S k + 1)%nat with (j + 1 + k + 1)%nat by lia.
      reflexivity.
  - exists []. rewrite app_nil_r. split; [reflexivity |].
    split; [cbn; lia |]. intros [| k] account Hk; discriminate.
Qed.

Lemma clientsLoop_spec length i clientList seed :
  exists added,
    fst (clientsLoop length i clientList seed) = clientList ++ added /\
    List.length added = Z.to_nat (length - Z.of_nat i) /\
    forall k client, nth_error added k = Some client -> generatedEntry (i + k) client.
Proof.
  remember (Z.to_nat (length - Z.of_nat i)) as m eqn:Hm.
  revert i clientList seed Hm.
  induction m as [m IH] using lt_wf_ind. intros i clientList seed ->.
  rewrite clientsLoop_step.
  destruct (Z.ltb_spec (Z.of_nat i) length) as [Hlt | Hge].
  - cbv zeta.
    set (draw := Math_random seed).
    set (filled := accountsLoop (floorOfProduct (fst draw) 10 + 1) 0 [] (snd draw)).
    set (clientData := JObject [(("Client " ++ decimal (i + 1))%string, JArray (fst filled))]).
    destruct (IH (Z.to_nat (length - Z.of_nat (i + 1))) ltac:(lia) (i + 1)%nat
                 (clientList ++ [clientData]) (snd filled) eq_refl)
      as (added & Heq & Hlen & Hshape).
    exists (clientData :: added).
    split; [rewrite Heq, <- app_assoc; reflexivity |].
    split; [cbn [List.length]; rewrite Hlen; lia |].
    intros [| k] client Hk.
    + injection Hk as <-. rewrite Nat.add_0_r.
      exists (fst filled). split; [reflexivity |].
      destruct (accountsLoop_spec (floorOfProduct (fst draw) 10 + 1) 0 [] (snd draw))
        as (accounts & Hacc & _ & Hshapes).
      fold filled in Hacc. cbn [app] in Hacc. rewrite Hacc.
      intros j account Hj. destruct (Hshapes j account Hj) as [amount ->].
      exists amount. reflexivity.
    + cbn [nth_error] in Hk. pose proof (Hshape k client Hk) as Hg.
      replace (i + S k)%nat with (i + 1 + k)%nat by lia. exact Hg.
  - exists []. rewrite app_nil_r. split; [reflexivity |].
    split; [cbn; lia |]. intros [| k] client Hk; discriminate.
Qed.

Lemma generateClientList_spec length seed :
  List.length (fst (generateClientList length seed)) = Z.to_nat length /\
  forall i client,
    nth_error (fst (generateClientList length seed)) i = Some client ->
    generatedEntry i client.
Proof.
  unfold generateClientList.
  destruct (clientsLoop_spec length 0 [] seed) as (added & Heq & Hlen & Hshape).
  cbn [app] in Heq. rewrite Heq. split.
  - rewrite Hlen. f_equal. lia.
  - intros i client Hi. exact (Hshape i client Hi).
Qed.

Lemma generatedEntry_isClientEntry i client :
  generatedEntry i client -> isClientEntry client = true.
Proof. intros (accounts & -> & _). reflexivity. Qed.

Lemma generateClientList_entries length seed :
  Forall (fun client => isClientEntry client = true) (fst (generateClientList length seed)).
Proof.
  apply Forall_forall. intros client Hin.
  apply In_nth_error in Hin. destruct Hin as [i Hi].
  destruct (generateClientList_spec length seed) as [_ Hshape].
  exact (generatedEntry_isClientEntry i client (Hshape i client Hi)).
Qed.

Lemma generatedEntry_same_key i j client client' :
  generatedEntry i client -> generatedEntry j client' ->
  Object_keys client = Object_keys client' -> i = j.
Proof.
  intros (accounts & -> & _) (accounts' & -> & _) Hkeys.
  cbn [Object_keys map fst] in Hkeys. injection Hkeys as Hkeys.
  apply decimal_injective in Hkeys. lia.
Qed.

(** X11: generateClientList returns as many entries as asked for (none for
    a negative count), whatever the random draws.  Entry [i] is the object
    with the single key [Client i+1] holding an array of [[Token j+1, amount]]
    pairs; the identifiers are pairwise distinct, and the list passes the
    format check of hashList. *)
Theorem generateClientList_is_a_client_list length seed :
  let clientList := fst (generateClientList length seed) in
  List.length clientList = Z.to_nat length /\
  (forall i client, nth_error clientList i = Some client -> generatedEntry i client) /\
  (forall i j client client',
      nth_error clientList i = Some client ->
      nth_error clientList j = Some client' ->
      Object_keys client = Object_keys client' ->
      i = j) /\
  checkFormat clientList = Ok tt.
Proof.
  cbv zeta.
  destruct (generateClientList_spec length seed) as [Hlen Hshape].
  split; [exact Hlen |]. split; [exact Hshape |]. split.
  - intros i j client client' Hi Hj Hkeys.
    exact (generatedEntry_same_key i j client client'
             (Hshape i client Hi) (Hshape j client' Hj) Hkeys).
  - apply checkFormat_entries. apply generateClientList_entries.
Qed.

(** ** [main] *)

Lemma find_first {A : Type} (f : A -> bool) (l : list A) k x :
  nth_error l k = Some x ->
  f x = true ->
  (forall i y, (i < k)%nat -> nth_error l i = Some y -> f y = false) ->
  find f l = Some x.
Proof.
  revert k. induction l as [| a l IH]; intros k Hk Hx Hbefore.
  - destruct k; discriminate.
  - destruct k as [| k].
    + injection Hk as ->. cbn [find]. now rewrite Hx.
    + cbn [find]. rewrite (Hbefore 0%nat a ltac:(lia) eq_refl).
      apply (IH k Hk Hx). intros i y Hi Hy. apply (Hbefore (S i) y ltac:(lia) Hy).
Qed.

Lemma nth_error_last {A : Type} (l : list A) d :
  l <> [] -> nth_error l (List.length l - 1) = Some (last l d).
Proof.
  induction l as [| a l IH]; intros Hne; [congruence |].
  destruct l as [| b l]; [reflexivity |].
  change (last (a :: b :: l) d) with (last (b :: l) d).
  rewrite <- IH by discriminate. cbn [List.length].
  replace (S (S (List.length l)) - 1)%nat with (S (S (List.length l) - 1)) by lia.
  reflexivity.
Qed.

Lemma even_to_nat n : (0 <= n)%Z -> Nat.even (Z.to_nat n) = Z.even n.
Proof.
  intros Hn. destruct (Z.even n) eqn:E.
  - apply Z.even_spec in E. destruct E as [half ->].
    apply Nat.even_spec. exists (Z.to_nat half). lia.
  - destruct (Nat.even (Z.to_nat n)) eqn:E'; [| reflexivity].
    apply Nat.even_spec in E'. destruct E' as [half Hhalf].
    assert (Z.even n = true); [| congruence].
    apply Z.even_spec. exists (Z.of_nat half). lia.
Qed.

Lemma elementAt_nth {Num : Type} (arr : list (JsValue Num)) k v :
  (0 <= k)%Z -> nth_error arr (Z.to_nat k) = Some v -> elementAt arr k = v.
Proof.
  intros Hk Hv. unfold elementAt.
  destruct (Z.ltb_spec k 0) as [H | _]; [lia |]. now rewrite Hv.
Qed.

(** X12: what [main] logs.  For a count [n >= 1], a drawn index [k] inside
    the list and serializable entries, [computeMerkleTree] succeeds on the
    generated list with a tree whose level 0 is the list's [hashList],
    [generateProofForEveryUser] succeeds on that tree, and [main] logs
    exactly its report with: depth ceil(log2 n) + 1; the only element of the
    tree's last level as the root; the identifier and the accounts of the
    generated entry at [k]; [n] paths; the path stored at [k] by
    [generateProofForEveryUser], which is the one
    [generateMerkleProofWithOrder] returns for the leaf hash at [k]; and the
    verdict [verifyMerkleProofWithOrder] returns for that entry, root and
    path.  The verdict compares the fold of the leaf hash at [k] along the
    path with the root, and it is [true] whenever [n] is even or 1, or the
    drawn user is not the last. *)
Theorem main_reports_the_verdict number_of_test_users verbose seed :
  let generated := generateClientList number_of_test_users seed in
  let randomUser :=
    floorOfProduct (fst (Math_random (snd generated))) number_of_test_users in
  (0 <= randomUser < number_of_test_users)%Z ->
  Forall serializable (fst generated) ->
  exists tree paths leaves leaf root proof account verdict,
    hashList (fst generated) SHA_256 = Ok leaves /\
    nth_error leaves (Z.to_nat randomUser) = Some leaf /\
    computeMerkleTree (fst generated) SHA_256 = Ok tree /\
    tree = leaves :: levelsAbove SHA_256 leaves /\
    last tree [] = [root] /\
    generateProofForEveryUser (fst generated) tree = Ok paths /\
    nth_error paths (Z.to_nat randomUser)
    = Some (("Client " ++ decimal (Z.to_nat randomUser + 1))%string, proof) /\
    generateMerkleProofWithOrder (Some leaf) tree = Ok (Some proof) /\
    nth_error (fst generated) (Z.to_nat randomUser)
    = Some (JObject [(("Client " ++ decimal (Z.to_nat randomUser + 1))%string, account)]) /\
    verifyMerkleProofWithOrder
      (JObject [(("Client " ++ decimal (Z.to_nat randomUser + 1))%string, account)])
      root proof SHA_256
    = Ok verdict /\
    main number_of_test_users verbose seed
    = Ok (report number_of_test_users verbose
                 (Nat.log2_up (Z.to_nat number_of_test_users) + 1)
                 (Some root)
                 (Some ("Client " ++ decimal (Z.to_nat randomUser + 1))%string)
                 (Some account)
                 (Z.to_nat number_of_test_users) proof verdict) /\
    verdict = (foldProof SHA_256 leaf proof =? root) /\
    ((Z.even number_of_test_users = true \/ number_of_test_users = 1
      \/ randomUser + 1 < number_of_test_users)%Z ->
     verdict = true).
Proof.
  intros generated randomUser Hrange Hser.
  set (clientList := fst generated) in *.
  destruct (generateClientList_spec number_of_test_users seed) as [Hlen Hshape].
  fold generated in Hlen, Hshape. fold clientList in Hlen, Hshape.
  pose proof (generateClientList_entries number_of_test_users seed) as Hentries.
  fold generated in Hentries. fold clientList in Hentries.
  set (k := Z.to_nat randomUser).
  assert (Hk : (k < List.length clientList)%nat) by (unfold k; lia).
  destruct (nth_error clientList k) as [client |] eqn:Hclient;
    [| apply nth_error_None in Hclient; lia].
  pose proof (Hshape k client Hclient) as (accounts & Hclienteq & _).
  set (id := ("Client " ++ decimal (k + 1))%string) in *.
  assert (Hat : elementAt clientList randomUser = client)
    by (apply elementAt_nth; [lia | exact Hclient]).
  assert (Hne : clientList <> []) by (intros E; rewrite E in Hk; cbn in Hk; lia).
  destruct (computeMerkleTree_total clientList SHA_256 Hne (conj Hentries Hser))
    as (hashes & Hh & Hhlen & Htree).
  assert (Hh' : hashes <> [])
    by (intros E; rewrite E in Hhlen; cbn in Hhlen; lia).
  destruct (levelsAbove_last SHA_256 hashes Hh') as [root Hroot].
  pose proof (depth_log2_up SHA_256 hashes Hh') as Hdepth.
  destruct (everyUserLoop_ok clientList hashes (levelsAbove SHA_256 hashes) 0 []
              Hentries ltac:(lia)) as [paths Hpaths].
  destruct (everyUserLoop_inv _ _ _ _ _ _ Hpaths) as (paths' & Heq & Hcount & Hall).
  cbn [app] in Heq, Hpaths. subst paths'.
  destruct (Hall k client Hclient) as (keys & proof & Hkeys & Hgen & Hentry).
  cbn [Nat.add] in Hgen. rewrite Hclienteq in Hkeys.
  cbn [Object_keys map fst] in Hkeys. injection Hkeys as <-.
  cbn [nth_error ToString] in Hentry.
  destruct (nth_error hashes k) as [leaf |] eqn:Hleaf;
    [| apply nth_error_None in Hleaf; lia].
  assert (Hfind : find (fun users : string * list Path => fst users =? id) paths
                  = Some (id, proof)).
  { apply (find_first _ paths k); [exact Hentry | apply String.eqb_refl |].
    intros i y Hi Hy.
    destruct (nth_error clientList i) as [other |] eqn:Hother;
      [| apply nth_error_None in Hother; lia].
    destruct (Hall i other Hother) as (keys' & proof' & Hkeys' & _ & Hentry').
    rewrite Hy in Hentry'. injection Hentry' as ->.
    pose proof (Hshape i other Hother) as (accounts' & -> & _).
    cbn [Object_keys map fst] in Hkeys'. injection Hkeys' as <-.
    cbn [nth_error ToString fst].
    apply String.eqb_neq. intros E. unfold id in E.
    assert (Hd : decimal (i + 1) = decimal (k + 1)).
    { clear - E. cbn [String.append] in E. now injection E. }
    apply decimal_injective in Hd. lia. }
  assert (Hverify : verifyMerkleProofWithOrder client root proof SHA_256
                    = Ok (foldProof SHA_256 leaf proof =? root)).
  { pose proof (hashList_inv _ _ _ Hh) as [_ Hitems].
    pose proof (Forall2_nth_error _ _ _ _ _ _ Hitems Hclient Hleaf) as Hitem.
    unfold hashItem in Hitem.
    destruct (JSON_stringify client) as [json | e] eqn:Hj; [| discriminate].
    injection Hitem as Hitem.
    rewrite (verifyMerkleProofWithOrder_fold _ _ _ _ json Hj), Hitem. reflexivity. }
  exists (hashes :: levelsAbove SHA_256 hashes), paths, hashes, leaf, root, proof,
    (JArray accounts), (foldProof SHA_256 leaf proof =? root).
  split; [exact Hh |]. split; [exact Hleaf |]. split; [exact Htree |].
  split; [reflexivity |]. split; [exact Hroot |].
  split; [exact Hpaths |]. split; [exact Hentry |]. split; [exact Hgen |].
  split; [rewrite <- Hclienteq; reflexivity |].
  split; [rewrite <- Hclienteq; exact Hverify |].
  split; [| split; [reflexivity |]].
  - unfold main. fold generated. fold clientList. fold randomUser.
    rewrite Hat. rewrite Hclienteq at 1.
    cbn [Object_keys map fst bind nth_error ToString].
    rewrite Htree. cbn [bind].
    unfold lastLevel.
    rewrite (nth_error_last (hashes :: levelsAbove SHA_256 hashes) [])
      by discriminate.
    rewrite Hroot. cbn [bind nth_error].
    unfold generateProofForEveryUser. rewrite Hpaths. cbn [bind].
    fold id. rewrite Hfind. cbn [snd]. rewrite Hverify. cbn [bind].
    rewrite Hdepth, Hhlen, Hlen, Hcount, Hlen.
    replace (Get client id) with (Some (JArray accounts) : option Value).
    + reflexivity.
    + rewrite Hclienteq. cbn [Get find fst]. fold id. rewrite String.eqb_refl. reflexivity.
  - intros Hpaired.
    assert (Htrue : verifyMerkleProofWithOrder client root proof SHA_256 = Ok true).
    { apply (paired_entry_verifies clientList hashes k client leaf proof root
               Hh Hclient Hleaf); [| exact Hroot | exact Hgen].
      destruct Hpaired as [He | [H1 | Hs]].
      - left. rewrite Hlen, even_to_nat by lia. exact He.
      - right. left. lia.
      - right. right. unfold k. lia. }
    rewrite Hverify in Htrue. now injection Htrue.
Qed.

(** X13: when the drawn index is no index of the generated list, as for
    every count [n <= 0], [main] throws the TypeError of reading the keys of
    [undefined], before the tree is built: [main(0)] does not fail with the
    empty-input error of computeMerkleTree. *)
Theorem main_throws_outside_the_list number_of_test_users verbose seed :
  let generated := generateClientList number_of_test_users seed in
  let randomUser :=
    floorOfProduct (fst (Math_random (snd generated))) number_of_test_users in
  (number_of_test_users <= 0 \/ randomUser < 0 \/ number_of_test_users <= randomUser)%Z ->
  main number_of_test_users verbose seed = Throw TypeError.
Proof.
  intros generated randomUser Hout.
  destruct (generateClientList_spec number_of_test_users seed) as [Hlen _].
  fold generated in Hlen.
  assert (Hat : elementAt (fst generated) randomUser = JUndefined).
  { unfold elementAt. destruct (Z.ltb_spec randomUser 0) as [H | H]; [reflexivity |].
    replace (nth_error (fst generated) (Z.to_nat randomUser)) with (@None Value);
      [reflexivity |].
    symmetry. apply nth_error_None. lia. }
  unfold main. fold generated. fold randomUser. rewrite Hat. reflexivity.
Qed.

End EntryPointProperties.

(** * Evaluations on concrete client lists *)

(** SHA-256 and the JSON text agree with the published test vector and with
    the text the runtime produces for a client entry. *)
Example sha256_abc :
  Sha256.sha256 "abc"
  = "ba7816bf8f01cfea414140de5dae2223b00361a396177a9cb410ff61f20015ad".
Proof. vm_compute. reflexivity. Qed.

Example sha256_constants :
  List.length Sha256.K = 64%nat /\
  nth 0 Sha256.K 0%Z = 0x428a2f98%Z /\ nth 63 Sha256.K 0%Z = 0xc67178f2%Z /\
  nth 0 Sha256.H0 0%Z = 0x6a09e667%Z /\ nth 7 Sha256.H0 0%Z = 0x5be0cd19%Z.
Proof. repeat split. Qed.

Example stringify_client2 :
  Json.stringify Deno.client2
  = Some ("{" ++ Json.quote "Client 2" ++ ":[[" ++ Json.quote "Token 1" ++ ",20],["
              ++ Json.quote "Token 2" ++ ",5]]}")%string.
Proof. vm_compute. reflexivity. Qed.

Lemma wellFormed_clients (inputList : list (JsValue Z)) :
  Forall (fun c => isClientEntry c = true) inputList -> wellFormed inputList.
Proof.
  intros H. split; [exact H |].
  apply Forall_forall. intros c _. exists (Json.stringify c). reflexivity.
Qed.

Lemma threeTree_computed : computeMerkleTree Deno.threeClients SHA_256 = Ok Deno.threeTree.
Proof. vm_compute. reflexivity. Qed.

Lemma fiveTree_computed : computeMerkleTree Deno.fiveClients SHA_256 = Ok Deno.fiveTree.
Proof. vm_compute. reflexivity. Qed.

(** C1, on the list of three clients: the tree is built, the proof of the
    third client's leaf hash is generated, and verifying the third client
    against the root with that proof returns false.  Level 0 has three
    entries; the builder pairs the third hash with itself, the proof loop
    finds no sibling at index 3 and records nothing for level 0. *)
Theorem roundtrip_fails_on_unpaired_last_leaf :
  exists tree root leaf,
    computeMerkleTree Deno.threeClients SHA_256 = Ok tree /\
    last tree [] = [root] /\
    hashList [Deno.client3] SHA_256 = Ok [leaf] /\
    generateMerkleProofWithOrder (Some leaf) tree
    = Ok (Some [{| hash := "2d7294a51ae467d63d88bd5a0970a041c3569ef0bf90bfbdf269b42a2ababcc8";
                   isRight := false |}]) /\
    verifyMerkleProofWithOrder
      Deno.client3 root
      [{| hash := "2d7294a51ae467d63d88bd5a0970a041c3569ef0bf90bfbdf269b42a2ababcc8";
          isRight := false |}]
      SHA_256
    = Ok false.
Proof.
  exists Deno.threeTree,
    "4dafffdd4cc31da37a478afb15bd038d1663ae45bd662162dcb7fda8c43dd959",
    "a69f82f6b76808be5801db9b089d3bc6f2b850b31a963d5ba6e9bb4293f65667".
  split; [exact threeTree_computed |].
  split; [reflexivity |].
  split; [vm_compute; reflexivity |].
  split; vm_compute; reflexivity.
Qed.

(** ** The theorems at concrete inputs *)

Lemma tree_levels_follow_construction_rule_witness :
  nth_error Deno.fiveTree 1
  = Some (nextLevelSpec SHA_256 (nth 0 Deno.fiveTree [])) /\
  List.length (nth 0 Deno.fiveTree []) = 5%nat /\
  List.length (nth 1 Deno.fiveTree []) = 4%nat.
Proof.
  split; [| split; reflexivity].
  apply (tree_levels_follow_construction_rule (rt := Deno.runtime)
           Deno.fiveClients SHA_256 Deno.fiveTree 0 (nth 0 Deno.fiveTree [])).
  - exact fiveTree_computed.
  - reflexivity.
  - vm_compute. lia.
Defined.

Lemma tree_depth_log2_up_witness : List.length Deno.fiveTree = 4%nat.
Proof.
  apply (tree_depth_log2_up (rt := Deno.runtime) Deno.fiveClients SHA_256 Deno.fiveTree fiveTree_computed).
  reflexivity.
Defined.

Lemma verify_folds_proof_in_order_witness :
  verifyMerkleProofWithOrder Deno.client1 "not the root"
    [{| hash := nth 1 (nth 0 Deno.threeTree []) ""; isRight := true |};
     {| hash := nth 1 (nth 1 Deno.threeTree []) ""; isRight := true |}]
    SHA_256
  = Ok false.
Proof.
  apply (verify_folds_proof_in_order (rt := Deno.runtime)
           Deno.client1 "not the root"
           [{| hash := nth 1 (nth 0 Deno.threeTree []) ""; isRight := true |};
            {| hash := nth 1 (nth 1 Deno.threeTree []) ""; isRight := true |}]
           SHA_256 (Json.stringify Deno.client1)).
  - reflexivity.
  - vm_compute. discriminate.
Defined.

Lemma lookup_not_found_and_batch_all_or_nothing_witness :
  exists i id accounts,
    nth_error Deno.threeClients i = Some (JObject [(id, accounts)]) /\
    generateMerkleProofWithOrder
      (nth_error (firstn 2 (nth 0 Deno.threeTree [])) i)
      [firstn 2 (nth 0 Deno.threeTree [])] = Ok None /\
    generateProofForEveryUser Deno.threeClients [firstn 2 (nth 0 Deno.threeTree [])]
    = Throw (ProofNotFoundError id).
Proof.
  apply (lookup_not_found_and_batch_all_or_nothing (rt := Deno.runtime)
           Deno.threeClients (firstn 2 (nth 0 Deno.threeTree [])) []).
  - repeat constructor.
  - exists 2%nat, Deno.client3. split; reflexivity.
Defined.

Lemma computeMerkleTree_empty_or_succeeds_witness :
  exists tree, computeMerkleTree Deno.threeClients SHA_256 = Ok tree.
Proof.
  apply (computeMerkleTree_empty_or_succeeds (rt := Deno.runtime) Deno.threeClients SHA_256).
  - discriminate.
  - apply wellFormed_clients. repeat constructor.
Defined.

Lemma hashList_preserves_order_and_is_level0_witness :
  exists hashes,
    hashList Deno.threeClients SHA_256 = Ok hashes /\
    List.length hashes = 3%nat /\
    nth_error Deno.threeTree 0 = Some hashes.
Proof.
  destruct (hashList_preserves_order_and_is_level0 (rt := Deno.runtime)
              Deno.threeClients SHA_256
              (wellFormed_clients Deno.threeClients ltac:(repeat constructor)))
    as (hashes & Hh & Hlen & _ & Htree).
  exists hashes. split; [exact Hh |]. split; [exact Hlen |].
  destruct (Htree ltac:(discriminate) SHA_256) as (tree & Ht & _ & H0).
  rewrite threeTree_computed in Ht. injection Ht as <-. exact (H0 eq_refl).
Defined.

Lemma computeMerkleTree_terminates_witness :
  exists tree root,
    computeMerkleTree Deno.fiveClients SHA_256 = Ok tree /\
    last tree [] = [root] /\
    (List.length tree <= 5)%nat.
Proof.
  apply (computeMerkleTree_terminates (rt := Deno.runtime)).
  - discriminate.
  - apply wellFormed_clients. repeat constructor.
Defined.


(** ** The further properties at concrete inputs *)

Lemma threeLeaves_computed :
  hashList Deno.threeClients SHA_256 = Ok (nth 0 Deno.threeTree []).
Proof. vm_compute. reflexivity. Qed.

Lemma serializable_by_default (inputList : list (JsValue Z)) :
  Forall (serializable (rt := Deno.runtime)) inputList.
Proof. apply Forall_forall. intros c _. exists (Json.stringify c). reflexivity. Qed.

Lemma roundtrip_paired_witness :
  exists tree root leaf proof,
    computeMerkleTree Deno.fiveClients SHA_256 = Ok tree /\
    last tree [] = [root] /\
    hashList [Deno.client1] SHA_256 = Ok [leaf] /\
    generateMerkleProofWithOrder (Some leaf) tree = Ok (Some proof) /\
    verifyMerkleProofWithOrder Deno.client1 root proof SHA_256 = Ok true.
Proof.
  apply (roundtrip_paired (rt := Deno.runtime) Deno.fiveClients 0 Deno.client1).
  - apply wellFormed_clients. repeat constructor.
  - reflexivity.
  - right. right. cbn. lia.
Defined.

Lemma batch_paths_verify_witness :
  exists tree root paths proof,
    computeMerkleTree Deno.fiveClients SHA_256 = Ok tree /\
    last tree [] = [root] /\
    generateProofForEveryUser Deno.fiveClients tree = Ok paths /\
    nth_error paths 3 = Some ("Client 4", proof) /\
    verifyMerkleProofWithOrder (JObject [("Client 4", JArray [])]) root proof SHA_256
    = Ok true.
Proof.
  apply (batch_paths_verify (rt := Deno.runtime) Deno.fiveClients 3 "Client 4" (JArray [])).
  - apply wellFormed_clients. repeat constructor.
  - reflexivity.
  - right. right. cbn. lia.
Defined.

Lemma unpaired_last_leaf_gets_parent_proof_witness :
  exists tree root proof,
    computeMerkleTree Deno.threeClients SHA_256 = Ok tree /\
    last tree [] = [root] /\
    generateMerkleProofWithOrder (Some (nth 2 (nth 0 Deno.threeTree []) "")) tree
    = Ok (Some proof) /\
    S (S (List.length proof)) = List.length tree /\
    foldProof SHA_256
      (digestHex SHA_256 (nth 2 (nth 0 Deno.threeTree []) ""
                          ++ nth 2 (nth 0 Deno.threeTree []) "")) proof = root /\
    verifyMerkleProofWithOrder Deno.client3 root proof SHA_256
    = Ok (foldProof SHA_256 (nth 2 (nth 0 Deno.threeTree []) "") proof =? root).
Proof.
  apply (unpaired_last_leaf_gets_parent_proof (rt := Deno.runtime)
           Deno.threeClients (nth 0 Deno.threeTree []) Deno.client3
           (nth 2 (nth 0 Deno.threeTree []) "")).
  - exact threeLeaves_computed.
  - reflexivity.
  - cbn. lia.
  - reflexivity.
  - reflexivity.
  - intros [| [| m]] Hm; cbn; [discriminate | discriminate | cbn in Hm; lia].
Defined.

Lemma batch_agrees_with_single_proofs_witness :
  exists tree leaves paths,
    computeMerkleTree Deno.threeClients SHA_256 = Ok tree /\
    hashList Deno.threeClients SHA_256 = Ok leaves /\
    generateProofForEveryUser Deno.threeClients tree = Ok paths /\
    List.length paths = 3%nat /\
    forall i id accounts,
      nth_error Deno.threeClients i = Some (JObject [(id, accounts)]) ->
      exists leaf proof,
        nth_error leaves i = Some leaf /\
        generateMerkleProofWithOrder (Some leaf) tree = Ok (Some proof) /\
        nth_error paths i = Some (id, proof).
Proof.
  apply (batch_agrees_with_single_proofs (rt := Deno.runtime) Deno.threeClients SHA_256).
  - discriminate.
  - apply wellFormed_clients. repeat constructor.
Defined.

Lemma batch_succeeds_iff_within_level0_witness :
  (exists paths, generateProofForEveryUser Deno.threeClients Deno.threeTree = Ok paths)
  <-> (3 <= List.length (nth 0 Deno.threeTree []))%nat.
Proof.
  apply (batch_succeeds_iff_within_level0 (rt := Deno.runtime)
           Deno.threeClients Deno.threeTree).
  repeat constructor.
Defined.

Lemma proof_length_is_logarithmic_witness :
  exists tree leaf proof,
    computeMerkleTree Deno.fiveClients SHA_256 = Ok tree /\
    hashList [Deno.client2] SHA_256 = Ok [leaf] /\
    generateMerkleProofWithOrder (Some leaf) tree = Ok (Some proof) /\
    List.length proof = 3%nat.
Proof.
  apply (proj2 (proof_length_is_logarithmic (rt := Deno.runtime))
               Deno.fiveClients 1%nat Deno.client2).
  - apply wellFormed_clients. repeat constructor.
  - reflexivity.
  - right. right. cbn. lia.
Defined.

Lemma upper_levels_shrink_and_are_even_witness :
  (exists previous,
      nth_error Deno.fiveTree 0 = Some previous /\
      (List.length (nth 1 Deno.fiveTree []) < List.length previous)%nat) /\
  ((1 < List.length (nth 1 Deno.fiveTree []))%nat ->
   Nat.even (List.length (nth 1 Deno.fiveTree [])) = true).
Proof.
  apply (upper_levels_shrink_and_are_even (rt := Deno.runtime)
           Deno.fiveClients SHA_256 Deno.fiveTree 0 (nth 1 Deno.fiveTree [])).
  - exact fiveTree_computed.
  - reflexivity.
Defined.

Lemma hashList_is_entrywise_witness :
  hashList [Deno.client2] SHA_256 = Ok [nth 1 (nth 0 Deno.threeTree []) ""].
Proof.
  apply (proj2 (hashList_is_entrywise (rt := Deno.runtime) Deno.threeClients [] SHA_256)
               (nth 0 Deno.threeTree []) 1%nat).
  - exact threeLeaves_computed.
  - reflexivity.
  - reflexivity.
Defined.

Lemma format_error_comes_first_witness :
  hashList (rt := WithBigInt.runtime) [WithBigInt.precise; JArray []] SHA_256
  = Throw FormatError /\
  computeMerkleTree (rt := WithBigInt.runtime) [WithBigInt.precise; JArray []] SHA_256
  = Throw FormatError.
Proof.
  apply (format_error_comes_first (rt := WithBigInt.runtime)).
  - intros [H | [H | []]]; discriminate.
  - right. left. reflexivity.
Defined.

Lemma serialization_error_propagates_witness :
  hashList (rt := WithBigInt.runtime) [WithBigInt.plain; WithBigInt.precise] SHA_256
  = Throw TypeError /\
  computeMerkleTree (rt := WithBigInt.runtime) [WithBigInt.plain; WithBigInt.precise] SHA_256
  = Throw TypeError /\
  (forall merkleRoot proof,
      verifyMerkleProofWithOrder (rt := WithBigInt.runtime)
        WithBigInt.precise merkleRoot proof SHA_256 = Throw TypeError).
Proof.
  apply (serialization_error_propagates (rt := WithBigInt.runtime)
           [WithBigInt.plain] [] WithBigInt.precise TypeError).
  - repeat constructor.
  - constructor; [| constructor]. eexists. reflexivity.
  - reflexivity.
Defined.

Lemma main_reports_the_verdict_witness :
  exists tree paths root proof account verdict,
    computeMerkleTree (fst (generateClientList (rnd := Scripted.source) 4 Scripted.script))
                      SHA_256 = Ok tree /\
    last tree [] = [root] /\
    generateProofForEveryUser
      (fst (generateClientList (rnd := Scripted.source) 4 Scripted.script)) tree
    = Ok paths /\
    nth_error paths 2 = Some ("Client 3", proof) /\
    nth_error (fst (generateClientList (rnd := Scripted.source) 4 Scripted.script)) 2
    = Some (JObject [("Client 3", account)]) /\
    verifyMerkleProofWithOrder (JObject [("Client 3", account)]) root proof SHA_256
    = Ok verdict /\
    main (rnd := Scripted.source) 4 true Scripted.script
    = Ok (report 4 true 3 (Some root) (Some "Client 3") (Some account) 4 proof verdict) /\
    verdict = true.
Proof.
  destruct (main_reports_the_verdict (rnd := Scripted.source) 4 true Scripted.script)
    as (tree & paths & leaves & leaf & root & proof & account & verdict
        & _ & _ & Htree & _ & Hroot & Hpaths & Hentry & _ & Hclient & Hverify
        & Hmain & _ & Htrue).
  - vm_compute. split; [discriminate | reflexivity].
  - apply serializable_by_default.
  - exists tree, paths, root, proof, account, verdict.
    split; [exact Htree |]. split; [exact Hroot |]. split; [exact Hpaths |].
    split; [exact Hentry |]. split; [exact Hclient |]. split; [exact Hverify |].
    split.
    + exact Hmain.
    + apply Htrue. left. reflexivity.
Defined.

Lemma main_throws_outside_the_list_witness :
  main (rnd := Scripted.source) 0 true Scripted.script = Throw TypeError.
Proof.
  apply (main_throws_outside_the_list (rnd := Scripted.source) 0 true Scripted.script).
  left. lia.
Defined.
